(** * WebP converter server: a model of [server.js] and its properties

    The development follows the layout of the source file: JavaScript
    values (strings as UTF-16 code units, numbers, query parameters), the
    helpers ([sanitizeFilename], [changeExtToWebp], [parseBool], [clamp]),
    the codec adapter [convertBufferToWebp], the limited-concurrency mapper
    [mapWithLimit] as a transition system over the event loop, and the two
    routes [GET /health] and [POST /convert]. *)

From Stdlib Require Import Ascii String.
From Stdlib Require Import ZArith NArith QArith Lia DecimalString.
From stdpp Require Import base tactics option list relations.

Local Open Scope nat_scope.

(** ** JavaScript strings *)

Module JS.

(** A JavaScript string is a sequence of UTF-16 code units; [slice],
    [length] and a regular expression without the [u] flag all work on
    code units. *)
Definition char16 := N.
Definition jsstring := list char16.

(** An ASCII literal of the source as a JavaScript string. *)
Definition lit (s : string) : jsstring :=
  List.map N_of_ascii (list_ascii_of_string s).

Definition char_eqb (a b : char16) : bool := N.eqb a b.

Fixpoint str_eqb (a b : jsstring) : bool :=
  match a, b with
  | [], [] => true
  | x :: a', y :: b' => char_eqb x y && str_eqb a' b'
  | _, _ => false
  end.

(** [a || b] on strings: the empty string is falsy. *)
Definition or_else (a b : jsstring) : jsstring :=
  match a with
  | [] => b
  | _ => a
  end.

(** The class [\s] of a regular expression, which is also the white space
    that [Number] trims: TAB, LF, VT, FF, CR, SP, NBSP, U+1680,
    U+2000..U+200A, LS, PS, U+202F, U+205F, U+3000 and the BOM. *)
Definition is_space (c : char16) : bool :=
  ((9 <=? c) && (c <=? 13) || (c =? 32) || (c =? 160) || (c =? 5760)
   || (8192 <=? c) && (c <=? 8202) || (c =? 8232) || (c =? 8233)
   || (c =? 8239) || (c =? 8287) || (c =? 12288) || (c =? 65279))%N.

(** [String.prototype.toLowerCase] on the ASCII letters; the characters
    outside ASCII are left as they are, which is exact for every comparison
    the server makes (its keywords contain no [k], the only ASCII letter
    another character lowers to). *)
Definition lower_char (c : char16) : char16 :=
  if ((65 <=? c) && (c <=? 90))%N then (c + 32)%N else c.

Definition toLowerCase (s : jsstring) : jsstring := List.map lower_char s.

(** [s.slice(0, n)]. *)
Definition slice0 (n : nat) (s : jsstring) : jsstring := take n s.

End JS.
Import JS.

(** ** Helpers of the server *)

(** The character class of the first replacement of [sanitizeFilename]:
    slash, backslash, question mark, percent, star, colon, bar, double
    quote, less-than and greater-than. *)
Definition is_reserved (c : char16) : bool :=
  ((c =? 47) || (c =? 92) || (c =? 63) || (c =? 37) || (c =? 42)
   || (c =? 58) || (c =? 124) || (c =? 34) || (c =? 60) || (c =? 62))%N.

Definition dash : char16 := 45%N.
Definition underscore : char16 := 95%N.

(** The first [replace] (global flag): every reserved character becomes a
    dash. *)
Definition replace_reserved (s : jsstring) : jsstring :=
  List.map (fun c => if is_reserved c then dash else c) s.

(** [.replace(/\s+/g, '_')]: every maximal run of white space becomes one
    underscore.  [in_run] tells that the previous character was white space
    (its run has already produced its underscore). *)
Fixpoint replace_spaces_from (in_run : bool) (s : jsstring) : jsstring :=
  match s with
  | [] => []
  | c :: s' =>
      if is_space c
      then (if in_run then replace_spaces_from true s'
            else underscore :: replace_spaces_from true s')
      else c :: replace_spaces_from false s'
  end.

Definition replace_spaces (s : jsstring) : jsstring :=
  replace_spaces_from false s.

(** [sanitizeFilename], lines 28-32. *)
Definition sanitizeFilename (name : jsstring) : jsstring :=
  slice0 120 (replace_spaces (replace_reserved (or_else name (lit "image")))).


(** ** JavaScript numbers and the conversion [Number(string)] *)

Module JSNumber.

(** A number is NaN, an infinity or a finite value.  A finite value is a
    double, kept as the rational it is, in lowest terms; the sign of zero
    is not kept (the server only looks at numbers through [clamp], whose
    bounds are not negative, so it cannot tell [-0] from [0]). *)
Inductive number :=
| NaN
| Infinity (negative : bool)
| Finite (q : Q).

Definition dec_digit (c : char16) : option N :=
  if ((48 <=? c) && (c <=? 57))%N then Some (c - 48)%N else None.

Definition hex_digit (c : char16) : option N :=
  if ((48 <=? c) && (c <=? 57))%N then Some (c - 48)%N
  else if ((97 <=? c) && (c <=? 102))%N then Some (c - 87)%N
  else if ((65 <=? c) && (c <=? 70))%N then Some (c - 55)%N
  else None.

Definition oct_digit (c : char16) : option N :=
  if ((48 <=? c) && (c <=? 55))%N then Some (c - 48)%N else None.

Definition bin_digit (c : char16) : option N :=
  if ((48 <=? c) && (c <=? 49))%N then Some (c - 48)%N else None.

(** The longest prefix of digits of [s]: its value in base [base] on top of
    [acc], the number of digits read on top of [n], and the rest. *)
Fixpoint read_digits (base : N) (dig : char16 -> option N) (acc : N) (n : nat)
    (s : jsstring) : N * nat * jsstring :=
  match s with
  | [] => (acc, n, [])
  | c :: s' =>
      match dig c with
      | Some d => read_digits base dig (acc * base + d)%N (S n) s'
      | None => (acc, n, s)
      end
  end.

Fixpoint skip_spaces (s : jsstring) : jsstring :=
  match s with
  | c :: s' => if is_space c then skip_spaces s' else s
  | [] => []
  end.

Definition trim (s : jsstring) : jsstring :=
  rev (skip_spaces (rev (skip_spaces s))).

(** [0x..], [0o..] and [0b..] (either case of the letter): at least one
    digit, nothing after the digits, and no sign before the prefix. *)
Definition non_decimal (s : jsstring) : option N :=
  match s with
  | 48%N :: p :: ds =>
      let read base dig :=
        match read_digits base dig 0%N 0 ds with
        | (v, S _, []) => Some v
        | _ => None
        end in
      if ((p =? 120) || (p =? 88))%N then read 16%N hex_digit
      else if ((p =? 111) || (p =? 79))%N then read 8%N oct_digit
      else if ((p =? 98) || (p =? 66))%N then read 2%N bin_digit
      else None
  | _ => None
  end.

(** The exponent part after the digits: absent, or [e] or [E], an optional
    sign and at least one digit, with nothing after it. *)
Definition exponent (s : jsstring) : option Z :=
  match s with
  | [] => Some 0%Z
  | c :: r =>
      if ((c =? 101) || (c =? 69))%N then
        let '(neg, r') :=
          match r with
          | 43%N :: t => (false, t)
          | 45%N :: t => (true, t)
          | _ => (false, r)
          end in
        match read_digits 10%N dec_digit 0%N 0 r' with
        | (v, S _, []) => Some (if neg then (- Z.of_N v)%Z else Z.of_N v)
        | _ => None
        end
      else None
  end.

(** [(num / 10^frac_digits) * 10^e], in lowest terms. *)
Definition scale (num : N) (frac_digits : nat) (e : Z) : Q :=
  let d := (e - Z.of_nat frac_digits)%Z in
  if (0 <=? d)%Z
  then Qred (Qmake (Z.of_N num * 10 ^ d)%Z 1)
  else Qred (Qmake (Z.of_N num) (Z.to_pos (10 ^ (- d))%Z)).

(** [floor (log2 (a / b))] for [a > 0]. *)
Definition floor_log2 (a : Z) (b : positive) : Z :=
  let e := (Z.log2 a - Z.log2 (Zpos b))%Z in
  let reaches :=
    if (0 <=? e)%Z then (Zpos b * 2 ^ e <=? a)%Z
    else (Zpos b <=? a * 2 ^ (- e))%Z in
  if reaches then e else (e - 1)%Z.

(** [n / d] rounded to the nearest integer, a tie to the even one. *)
Definition round_half_even (n d : Z) : Z :=
  let m := (n / d)%Z in
  let r := (n mod d)%Z in
  if (2 * r <? d)%Z then m
  else if (d <? 2 * r)%Z then (m + 1)%Z
  else if Z.even m then m else (m + 1)%Z.

(** The double of a rational that is not negative: the nearest number
    [m * 2^u] with [m < 2^53] and [u >= -1074], a tie to the even [m];
    [None] when that is [2^1024] or more, which is an infinity. *)
Definition nearest_double (q : Q) : option Q :=
  let a := Qnum q in
  let b := Qden q in
  if (a <=? 0)%Z then Some 0%Q
  else
    let u := Z.max (floor_log2 a b - 52) (-1074) in
    let m :=
      if (0 <=? u)%Z then round_half_even a (Zpos b * 2 ^ u)
      else round_half_even (a * 2 ^ (- u)) (Zpos b) in
    let v :=
      if (0 <=? u)%Z then Qmake (m * 2 ^ u) 1
      else Qred (Qmake m (Z.to_pos (2 ^ (- u)))) in
    if Qle_bool (Qmake (2 ^ 1024) 1) v then None else Some v.

(** The number a literal of mathematical value [q >= 0], negated when
    [negative], stands for. *)
Definition of_rational (negative : bool) (q : Q) : number :=
  match nearest_double q with
  | None => Infinity negative
  | Some v => Finite (if negative then Qred (Qopp v) else v)
  end.

(** An unsigned decimal literal: [Infinity], or digits with an optional
    fraction and exponent, with a digit on at least one side of the dot. *)
Definition unsigned_decimal (negative : bool) (s : jsstring) : number :=
  if str_eqb s (lit "Infinity") then Infinity negative
  else
    let '(ip, ni, r1) := read_digits 10%N dec_digit 0%N 0 s in
    let '(m, nf, r2) :=
      match r1 with
      | 46%N :: r => read_digits 10%N dec_digit ip 0 r
      | _ => (ip, 0, r1)
      end in
    match ni + nf, exponent r2 with
    | S _, Some e =>
        of_rational negative (scale m nf e)
    | _, _ => NaN
    end.

(** [Number(s)] for a string [s] (the StringNumericLiteral grammar): the
    empty or blank string is [0], a literal is its value, and anything else
    is NaN. *)
Definition of_string (s : jsstring) : number :=
  let t := trim s in
  match t with
  | [] => Finite 0
  | c :: u =>
      match non_decimal t with
      | Some v => of_rational false (Qmake (Z.of_N v) 1)
      | None =>
          if (c =? 43)%N then unsigned_decimal false u
          else if (c =? 45)%N then unsigned_decimal true u
          else unsigned_decimal false t
      end
  end.

(** [Number(v)] for a query parameter: [undefined] is NaN. *)
Definition Number (v : option jsstring) : number :=
  match v with
  | None => NaN
  | Some s => of_string s
  end.

(** [Math.max] and [Math.min] on finite numbers. *)
Definition Math_max (a b : Q) : Q := if Qle_bool a b then b else a.
Definition Math_min (a b : Q) : Q := if Qle_bool a b then a else b.

End JSNumber.
Import JSNumber.

(** ** Option parsing *)

(** [parseBool], lines 53-58.  A query parameter is a string or absent, so
    the [typeof val === 'boolean'] branch is never taken by the server. *)
Definition parseBool (val : option jsstring) (def : bool) : bool :=
  match val with
  | None => def
  | Some v =>
      let s := toLowerCase v in
      str_eqb s (lit "1") || str_eqb s (lit "true")
      || str_eqb s (lit "yes") || str_eqb s (lit "on")
  end.

(** [clamp], lines 60-64.  The default may be [undefined] ([None]), and so
    may the result. *)
Definition clamp (num : option jsstring) (min max : Q) (def : option Q)
    : option Q :=
  match Number num with
  | Finite n => Some (Math_min max (Math_max min n))
  | _ => def
  end.

(** ** Buffers, errors and settled promises *)

Definition bytes := list N.

(** [Buffer.from(s, 'utf8')]: the UTF-8 encoding of a string; a surrogate
    pair is one character of four bytes and a lone surrogate is encoded as
    U+FFFD. *)
Fixpoint utf8 (s : jsstring) : bytes :=
  match s with
  | [] => []
  | c :: s' =>
      if (c <? 128)%N then c :: utf8 s'
      else if (c <? 2048)%N then
        (192 + c / 64)%N :: (128 + c mod 64)%N :: utf8 s'
      else if ((55296 <=? c) && (c <? 56320))%N then
        match s' with
        | lo :: s'' =>
            if ((56320 <=? lo) && (lo <? 57344))%N then
              let cp := (65536 + (c - 55296) * 1024 + (lo - 56320))%N in
              (240 + cp / 262144)%N :: (128 + (cp / 4096) mod 64)%N
                :: (128 + (cp / 64) mod 64)%N :: (128 + cp mod 64)%N :: utf8 s''
            else 239%N :: 191%N :: 189%N :: utf8 s'
        | [] => [239; 191; 189]%N
        end
      else if ((56320 <=? c) && (c <? 57344))%N then
        239%N :: 191%N :: 189%N :: utf8 s'
      else
        (224 + c / 4096)%N :: (128 + (c / 64) mod 64)%N
          :: (128 + c mod 64)%N :: utf8 s'
  end.

(** A thrown value, as far as the server looks at it: its [message], which
    may be missing. *)
Record jserror := JsError { message : option jsstring }.

(** How a promise settles. *)
Inductive outcome (A : Type) :=
| Resolved (a : A)
| Rejected (e : jserror).
Arguments Resolved {A} a.
Arguments Rejected {A} e.

(** [String(err?.message || 'Conversion failed')], lines 178 and 204. *)
Definition failure_text (e : jserror) : jsstring :=
  match message e with
  | Some m => or_else m (lit "Conversion failed")
  | None => lit "Conversion failed"
  end.

(** The decimal digits of a number in a template string. *)
Definition decimal (n : N) : jsstring :=
  lit (DecimalString.NilZero.string_of_uint (N.to_uint n)).

(** ** Configuration and conversion options *)

(** The configuration read from the environment, lines 13-18. *)
Record config := Config {
  DEFAULT_QUALITY : Q;
  DEFAULT_EFFORT : Q;
  CONVERT_CONCURRENCY : nat
}.

(** The configuration of a process started with an empty environment. *)
Definition default_config : config :=
  {| DEFAULT_QUALITY := 80; DEFAULT_EFFORT := 4; CONVERT_CONCURRENCY := 2 |}.

(** The query parameters of a request; each is a string or absent. *)
Record query := Query {
  q_output : option jsstring;
  q_quality : option jsstring;
  q_lossless : option jsstring;
  q_nearLossless : option jsstring;
  q_alphaQuality : option jsstring;
  q_effort : option jsstring;
  q_smartSubsample : option jsstring
}.

Definition no_query : query :=
  Query None None None None None None None.

(** The options record [convertOpts], line 133; [None] is [undefined]. *)
Record convertOpts := ConvertOpts {
  quality : option Q;
  lossless : bool;
  nearLossless : bool;
  alphaQuality : option Q;
  effort : option Q;
  smartSubsample : bool
}.

(** Lines 126-133. *)
Definition resolveOptions (cfg : config) (q : query) : convertOpts :=
  {| quality := clamp (q_quality q) 1 100 (Some (DEFAULT_QUALITY cfg));
     lossless := parseBool (q_lossless q) false;
     nearLossless := parseBool (q_nearLossless q) false;
     alphaQuality := clamp (q_alphaQuality q) 0 100 None;
     effort := clamp (q_effort q) 0 6 (Some (DEFAULT_EFFORT cfg));
     smartSubsample := parseBool (q_smartSubsample q) false |}.

(** The options object handed to [sharp(...).webp], lines 42-49. *)
Record webpOptions := WebpOptions {
  wo_quality : option Q;
  wo_lossless : bool;
  wo_nearLossless : bool;
  wo_alphaQuality : option Q;
  wo_effort : option Q;
  wo_smartSubsample : bool
}.

Definition webp_options (opts : convertOpts) : webpOptions :=
  {| wo_quality := if lossless opts then Some 100%Q else quality opts;
     wo_lossless := lossless opts;
     wo_nearLossless := nearLossless opts;
     wo_alphaQuality := alphaQuality opts;
     wo_effort := effort opts;
     wo_smartSubsample := smartSubsample opts |}.

(** ** The libraries the server calls *)

(** [path.parse(p).name] of Node's [path] module, and the encoder
    [sharp(buffer, {sequentialRead: true}).rotate().webp(options).toBuffer()],
    whose promise resolves with the encoded bytes or rejects. *)
Class Libraries := {
  path_parse_name : jsstring -> jsstring;
  sharp_rotate_webp : bytes -> webpOptions -> outcome bytes
}.

Section Helpers.
Context `{Libraries}.

(** [changeExtToWebp], lines 34-37. *)
Definition changeExtToWebp (filename : jsstring) : jsstring :=
  sanitizeFilename (or_else (path_parse_name filename) (lit "image"))
    ++ lit ".webp".

(** [convertBufferToWebp], lines 39-51: what its promise settles with. *)
Definition convertBufferToWebp (buffer : bytes) (opts : convertOpts)
    : outcome bytes :=
  sharp_rotate_webp buffer (webp_options opts).

End Helpers.

(** ** The limited-concurrency mapper, lines 67-79

    JavaScript runs one callback at a time, so an execution of
    [mapWithLimit] is a sequence of atomic steps.  The synchronous part of
    the call starts [Math.min(limit, items.length)] copies of the worker
    loop; each runs up to its first [await], that is, it takes the next
    index from the shared counter [i] and calls [mapper] on that item.
    After that the only events are the settlements of the pending [mapper]
    promises, in an order the program does not control: the loop that
    awaited the promise stores the value, takes the next index and calls
    [mapper] again, or returns when the items are exhausted; when the
    promise rejects, the [await] throws and that loop ends. *)

Module Mapper.
Section Machine.
Context {Item R W : Type}.

(** An asynchronous function with one suspension point: what it does to
    the world [W] when called (up to its [await]) and what it does, and
    settles with, when the awaited operation completes. *)
Record async_fn := AsyncFn {
  on_call : Item -> nat -> W -> W;
  on_settle : Item -> nat -> W -> outcome R * W
}.

Variable mapper : async_fn.
Variable items : list Item.

(** A copy of the worker loop: suspended at [await mapper(items[idx], idx)],
    returned (it took the [break]), or ended by the exception of a rejected
    [await]. *)
Inductive worker :=
| Awaiting (idx : nat)
| Returned
| Thrown.

Record state := State {
  cursor : nat;                   (* the shared counter [i] *)
  results : list (option R);      (* [results]; [None] is an empty slot *)
  workers : list worker;          (* the promises in [workers] *)
  rejection : option jserror;     (* the first rejection seen by [Promise.all] *)
  world : W
}.

(** [const idx = i++; if (idx >= items.length) break; ... mapper(items[idx], idx)]
    for [i = idx]; the counter is incremented by the caller. *)
Definition take_next (idx : nat) (w : W) : worker * W :=
  match items !! idx with
  | Some x => (Awaiting idx, on_call mapper x idx w)
  | None => (Returned, w)
  end.

(** One more copy of the loop is started and runs up to its [await]. *)
Definition start_worker (st : state) : state :=
  let '(wk, w) := take_next (cursor st) (world st) in
  {| cursor := S (cursor st);
     results := results st;
     workers := workers st ++ [wk];
     rejection := rejection st;
     world := w |}.

(** The state when the synchronous part of [mapWithLimit] is over. *)
Definition init (limit : nat) (w0 : W) : state :=
  Nat.iter (limit `min` length items) start_worker
    {| cursor := 0;
       results := replicate (length items) None;
       workers := [];
       rejection := None;
       world := w0 |}.

(** The promise awaited by worker [k] settles. *)
Definition settle (k : nat) (st : state) : option state :=
  match workers st !! k with
  | Some (Awaiting idx) =>
      match items !! idx with
      | Some x =>
          let '(out, w) := on_settle mapper x idx (world st) in
          match out with
          | Resolved v =>
              let '(wk, w') := take_next (cursor st) w in
              Some {| cursor := S (cursor st);
                      results := <[idx := Some v]> (results st);
                      workers := <[k := wk]> (workers st);
                      rejection := rejection st;
                      world := w' |}
          | Rejected e =>
              Some {| cursor := cursor st;
                      results := results st;
                      workers := <[k := Thrown]> (workers st);
                      rejection := Some (default e (rejection st));
                      world := w |}
          end
      | None => None
      end
  | _ => None
  end.

Definition step (st st' : state) : Prop := exists k, settle k st = Some st'.

(** The states an execution started with [limit] and [w0] goes through. *)
Definition reachable (limit : nat) (w0 : W) (st : state) : Prop :=
  rtc step (init limit w0) st.

(** The item indices whose [mapper] invocation is executing. *)
Definition awaited (wk : worker) : option nat :=
  match wk with
  | Awaiting idx => Some idx
  | _ => None
  end.

Definition in_flight (st : state) : list nat := omap awaited (workers st).

(** The workers that are suspended, by position in [workers]. *)
Fixpoint awaiting_from (k : nat) (ws : list worker) : list nat :=
  match ws with
  | [] => []
  | Awaiting _ :: ws' => k :: awaiting_from (S k) ws'
  | _ :: ws' => awaiting_from (S k) ws'
  end.

Definition pending (st : state) : list nat := awaiting_from 0 (workers st).

(** An execution under a completion order: at step [t] the pending promise
    number [sched t] (modulo their count) settles; the run is over when
    nothing is pending. *)
Fixpoint run (sched : nat -> nat) (fuel t : nat) (st : state) : state :=
  match fuel with
  | 0 => st
  | S fuel' =>
      let ps := pending st in
      match ps !! (sched t `mod` length ps) with
      | Some k =>
          match settle k st with
          | Some st' => run sched fuel' (S t) st'
          | None => st
          end
      | None => st
      end
  end.

Definition all_returned (st : state) : bool :=
  forallb (fun wk => match wk with Returned => true | _ => false end)
          (workers st).

(** [await Promise.all(workers); return results]: the promise of
    [mapWithLimit] is rejected with the first rejection of a worker,
    fulfilled with [results] once every worker has returned, and pending
    ([None]) otherwise. *)
Definition promise (st : state) : option (outcome (list (option R))) :=
  match rejection st with
  | Some e => Some (Rejected e)
  | None => if all_returned st then Some (Resolved (results st)) else None
  end.

(** [mapWithLimit] run until nothing is pending any more (every settlement
    ends one invocation, so [items.length] steps are enough): the state of
    its promise and the world it leaves. *)
Definition mapWithLimit (sched : nat -> nat) (limit : nat) (w0 : W)
    : option (outcome (list (option R))) * W :=
  let st := run sched (length items) 0 (init limit w0) in
  (promise st, world st).

End Machine.
End Mapper.

(** ** Responses *)

(** The values of the JSON objects the server sends, and such an object
    with its properties in order. *)
Inductive jsonval :=
| JBool (b : bool)
| JNumber (q : Q)
| JString (s : jsstring).

Definition json := list (string * jsonval).

(** What is written to a response or appended to the archive. *)
Inductive chunk :=
| Text (s : jsstring)
| Binary (b : bytes)
| JsonText (j : json).

(** The response object of Express, as far as the handlers use it.
    [headers] holds what the calls of the server to [setHeader] have set;
    what Express adds to them or changes in them when it sends a body is
    left out. *)
Record response := Response {
  statusCode : nat;
  headers : list (string * jsstring);
  body : list chunk;
  ended : bool
}.

Definition fresh_response : response := Response 200 [] [] false.

Definition status (code : nat) (r : response) : response :=
  Response code (headers r) (body r) (ended r).

(** The code units [res.setHeader] accepts in a value: it throws on a
    value that matches [/[^\t\x20-\x7e\x80-\xff]/]. *)
Definition valid_header_char (c : char16) : bool :=
  ((c =? 9) || (32 <=? c) && (c <=? 126) || (128 <=? c) && (c <=? 255))%N.

Definition valid_header_value (v : jsstring) : bool := forallb valid_header_char v.

(** [res.setHeader(name, value)] on a value it accepts: the header is set,
    in place of an earlier one of that name. *)
Definition setHeader (name : string) (value : jsstring) (r : response) : response :=
  Response (statusCode r)
    (List.filter (fun h => negb (String.eqb (fst h) name)) (headers r)
       ++ [(name, value)])
    (body r) (ended r).

Definition write (c : chunk) (r : response) : response :=
  Response (statusCode r) (headers r) (body r ++ [c]) (ended r).

Definition write_all (cs : list chunk) (r : response) : response :=
  fold_left (fun r c => write c r) cs r.

Definition end_response (r : response) : response :=
  Response (statusCode r) (headers r) (body r) true.

Definition send (b : bytes) (r : response) : response :=
  end_response (write (Binary b) r).

Definition send_json (j : json) (r : response) : response :=
  end_response (write (JsonText j) r).

Definition headersSent (r : response) : bool :=
  match body r with
  | [] => ended r
  | _ => true
  end.

Definition field (name : string) (j : json) : option jsonval :=
  snd <$> List.find (fun f => String.eqb (fst f) name) j.

(** ** [GET /health], lines 101-103; [uptime] is [process.uptime()]. *)
Definition health (uptime : Q) : response :=
  send_json [("ok", JBool true); ("uptime", JNumber uptime)]%string
            fresh_response.

(** ** [POST /convert], lines 117-224 *)

Record file := File {
  originalname : jsstring;
  buffer : bytes;
  mimetype : jsstring
}.

Record request := Request {
  files : list file;       (* [req.files]; absent and empty are both [[]] *)
  params : query           (* [req.query] *)
}.

(** What a request reads from its surroundings: the clock, the value of
    [crypto.randomUUID()] (36 hexadecimal digits and dashes), and the
    order in which the pending conversions complete. *)
Record ambient := Ambient {
  Date_now : N;
  randomUUID : jsstring;
  completion : nat -> nat
}.

(** The calls made on the archiver. *)
Inductive archive_op :=
| Append (content : chunk) (name : jsstring)
| Finalize.

(** The state a request works on: the response, the calls made on the
    archiver (piped to the response), and the calls made to the encoder. *)
Record world := World {
  res : response;
  archive : list archive_op;
  codec_calls : list (bytes * webpOptions)
}.

Definition on_res (f : response -> response) (w : world) : world :=
  World (f (res w)) (archive w) (codec_calls w).

Definition archive_do (op : archive_op) (w : world) : world :=
  World (res w) (archive w ++ [op]) (codec_calls w).

Definition call_codec (buf : bytes) (opts : convertOpts) (w : world) : world :=
  World (res w) (archive w) (codec_calls w ++ [(buf, webp_options opts)]).

Definition CRLF : jsstring := [13; 10]%N.
Definition LF : jsstring := [10]%N.
Definition dquote : jsstring := [34]%N.

(** The branch the handler takes, lines 119-220. *)
Inductive branch :=
| NoFiles
| Single
| Archive
| Multipart
| InvalidMode.

(** [String(req.query.output || 'auto').toLowerCase()], line 125. *)
Definition outputMode (q : query) : jsstring :=
  toLowerCase (or_else (default [] (q_output q)) (lit "auto")).

Definition dispatch (n : nat) (mode : jsstring) : branch :=
  if n =? 0 then NoFiles
  else
    let wantsZip := str_eqb mode (lit "zip") || (str_eqb mode (lit "auto") && (1 <? n)) in
    let wantsMultipart := str_eqb mode (lit "multipart") in
    if negb wantsZip && negb wantsMultipart && (n =? 1) then Single
    else if wantsZip then Archive
    else if wantsMultipart then Multipart
    else InvalidMode.

Definition error_body (msg : jsstring) : json :=
  [("error"%string, JString msg)].

(** The global error handler, lines 227-240, for an error that is not a
    [MulterError] (those come from the upload middleware, before the
    handler). *)
Definition errorHandler (err : jserror) (w : world) : world :=
  if headersSent (res w) then w
  else on_res (fun r => send_json (error_body (lit "Internal Server Error")) (status 500 r)) w.

Section Convert.
Context `{Libraries}.
Variable cfg : config.
Variable env : ambient.

Definition errorName (f : file) : jsstring :=
  sanitizeFilename (path_parse_name (or_else (originalname f) (lit "image")))
    ++ lit "__ERROR.txt".

Definition outName (f : file) : jsstring :=
  changeExtToWebp (or_else (originalname f) (lit "image.webp")).

Definition attachment (name : jsstring) : jsstring :=
  lit "attachment; filename=" ++ dquote ++ name ++ dquote.

(** What [res.setHeader] throws on a value it refuses. *)
Definition invalid_header_error (name : string) : jserror :=
  JsError (Some (lit "Invalid character in header content ["
                   ++ dquote ++ lit name ++ dquote ++ lit "]")).

(** The single-file branch, lines 140-149.  The name of the upload ends up
    in the value of [Content-Disposition], and [res.setHeader] throws on
    that value when the name holds a code unit it refuses (a control
    character or one above [0xff], which [sanitizeFilename] keeps): the
    [catch] of the handler then passes the error on, with [Content-Type]
    already set. *)
Definition convert_single (opts : convertOpts) (f : file) (w : world) : world :=
  let w := call_codec (buffer f) opts w in
  match convertBufferToWebp (buffer f) opts with
  | Resolved buf =>
      let w := on_res (setHeader "Content-Type" (lit "image/webp")) w in
      if valid_header_value (attachment (outName f)) then
        on_res (fun r =>
          send buf (status 200
            (setHeader "Cache-Control" (lit "no-store")
              (setHeader "Content-Disposition" (attachment (outName f)) r)))) w
      else errorHandler (invalid_header_error "Content-Disposition") w
  | Rejected err => errorHandler err w
  end.

(** The callback given to [mapWithLimit], lines 170-180: the call reaches
    the encoder; when the encoder is done the entry is appended, an error
    entry in the [catch].  It never rejects. *)
Definition archive_worker (opts : convertOpts) : Mapper.async_fn (Item:=file) (R:=unit) (W:=world) :=
  {| Mapper.on_call := fun f _ w => call_codec (buffer f) opts w;
     Mapper.on_settle := fun f _ w =>
       match convertBufferToWebp (buffer f) opts with
       | Resolved buf =>
           (Resolved (), archive_do (Append (Binary buf) (outName f)) w)
       | Rejected err =>
           (Resolved (), archive_do (Append (Text (failure_text err)) (errorName f)) w)
       end |}.

(** The headers of the archive response, lines 153-156; their values are
    made of ASCII letters, digits and punctuation, which [res.setHeader]
    accepts. *)
Definition zip_begin (w : world) : world :=
  let zipName := lit "converted_" ++ decimal (Date_now env) ++ lit ".zip" in
  on_res (fun r =>
    setHeader "Cache-Control" (lit "no-store")
      (setHeader "Content-Disposition" (attachment zipName)
        (setHeader "Content-Type" (lit "application/zip") r))) w.

(** The archive branch, lines 152-184: [archive.finalize()] comes after
    [await mapWithLimit(...)]; a rejection of that promise would skip it
    and reach the [catch] of the handler. *)
Definition convert_zip (opts : convertOpts) (fs : list file) (w : world) : world :=
  match Mapper.mapWithLimit (archive_worker opts) fs (completion env)
          (CONVERT_CONCURRENCY cfg) (zip_begin w) with
  | (Some (Resolved _), w') => on_res end_response (archive_do Finalize w')
  | (Some (Rejected err), w') => errorHandler err w'
  | (None, w') => w'
  end.

(** The six [res.write] calls of a turn of the loop of the multipart
    branch, in order: lines 197-202 when the conversion succeeds, lines
    207-212 in the [catch]. *)
Definition part_chunks (opts : convertOpts) (boundary : jsstring) (f : file) : list chunk :=
  match convertBufferToWebp (buffer f) opts with
  | Resolved buf =>
      [ Text (lit "--" ++ boundary ++ CRLF);
        Text (lit "Content-Type: image/webp" ++ CRLF);
        Text (lit "Content-Disposition: " ++ attachment (outName f) ++ CRLF);
        Text (lit "Content-Length: " ++ decimal (N.of_nat (length buf)) ++ CRLF ++ CRLF);
        Binary buf;
        Text CRLF ]
  | Rejected err =>
      let errBuf := utf8 (failure_text err) in
      [ Text (lit "--" ++ boundary ++ CRLF);
        Text (lit "Content-Type: text/plain; charset=utf-8" ++ CRLF);
        Text (lit "Content-Disposition: " ++ attachment (errorName f) ++ LF);
        Text (lit "Content-Length: " ++ decimal (N.of_nat (length errBuf)) ++ CRLF ++ CRLF);
        Binary errBuf;
        Text CRLF ]
  end.

(** One turn of the loop, lines 192-214. *)
Definition write_part (opts : convertOpts) (boundary : jsstring) (w : world) (f : file) : world :=
  on_res (write_all (part_chunks opts boundary f)) (call_codec (buffer f) opts w).

(** The boundary, line 188. *)
Definition multipart_boundary : jsstring :=
  lit "batch-" ++ List.filter (fun c => negb (char_eqb c dash)) (randomUUID env).

(** The multipart branch, lines 187-217.  The boundary is made from a
    UUID (hexadecimal digits and dashes), so [res.setHeader] accepts the
    value of [Content-Type]. *)
Definition convert_multipart (opts : convertOpts) (fs : list file) (w : world) : world :=
  let boundary := multipart_boundary in
  let w := on_res (fun r =>
             setHeader "Cache-Control" (lit "no-store")
               (setHeader "Content-Type" (lit "multipart/mixed; boundary=" ++ boundary) r)) w in
  let w := fold_left (write_part opts boundary) fs w in
  on_res (fun r => end_response (write (Text (lit "--" ++ boundary ++ lit "--" ++ CRLF)) r)) w.

(** The handler. *)
Definition convert (req : request) : world :=
  let w0 := World fresh_response [] [] in
  let opts := resolveOptions cfg (params req) in
  match dispatch (length (files req)) (outputMode (params req)) with
  | NoFiles =>
      on_res (fun r =>
        send_json
          (error_body (lit "No files received. Use field name " ++ dquote
                         ++ lit "images" ++ dquote ++ lit "."))
          (status 400 r)) w0
  | Single =>
      match files req with
      | f :: _ => convert_single opts f w0
      | [] => w0
      end
  | Archive => convert_zip opts (files req) w0
  | Multipart => convert_multipart opts (files req) w0
  | InvalidMode =>
      on_res (fun r => send_json (error_body (lit "Invalid output mode")) (status 400 r)) w0
  end.

End Convert.

(** ** What is sent on the wire, and the framing of the spec *)

(** The bytes of a written chunk: a string is encoded as UTF-8, each call
    to [write] by itself. *)
Definition chunk_bytes (c : chunk) : bytes :=
  match c with
  | Text s => utf8 s
  | Binary b => b
  | JsonText _ => []
  end.

Definition wire (cs : list chunk) : bytes := concat (chunk_bytes <$> cs).

(** A part as section 4.7 of the specification words it: the delimiter
    line, the three header lines, a blank line, the body and a line
    separator, every line ended by CRLF. *)
Definition spec_part (boundary ctype name : jsstring) (payload : bytes) : list chunk :=
  [ Text (lit "--" ++ boundary ++ CRLF);
    Text (lit "Content-Type: " ++ ctype ++ CRLF);
    Text (lit "Content-Disposition: " ++ attachment name ++ CRLF);
    Text (lit "Content-Length: " ++ decimal (N.of_nat (length payload)) ++ CRLF ++ CRLF);
    Binary payload;
    Text CRLF ].

Definition spec_closing (boundary : jsstring) : chunk :=
  Text (lit "--" ++ boundary ++ lit "--" ++ CRLF).

(** ** What the streaming branches are expected to emit *)

Section Expected.
Context `{Libraries}.

(** The archive entry of a file: the encoded bytes under the output name,
    or the failure text under the error name. *)
Definition archive_entry (opts : convertOpts) (f : file) : archive_op :=
  match convertBufferToWebp (buffer f) opts with
  | Resolved buf => Append (Binary buf) (outName f)
  | Rejected err => Append (Text (failure_text err)) (errorName f)
  end.

(** The multipart part of a file in the framing of the specification. *)
Definition expected_part (opts : convertOpts) (boundary : jsstring) (f : file) : list chunk :=
  match convertBufferToWebp (buffer f) opts with
  | Resolved buf => spec_part boundary (lit "image/webp") (outName f) buf
  | Rejected err =>
      spec_part boundary (lit "text/plain; charset=utf-8") (errorName f)
        (utf8 (failure_text err))
  end.

(** A worker that lets the failure of the conversion through, for
    [mapWithLimit] taken by itself. *)
Definition bare_worker (opts : convertOpts) : Mapper.async_fn (Item:=file) (R:=bytes) (W:=world) :=
  {| Mapper.on_call := fun f _ w => call_codec (buffer f) opts w;
     Mapper.on_settle := fun f _ w => (convertBufferToWebp (buffer f) opts, w) |}.

End Expected.

(** ** Sample inputs *)

Definition query_quality (s : string) : query :=
  Query None (Some (lit s)) None None None None None.

Definition query_output (s : string) : query :=
  Query (Some (lit s)) None None None None None None.

Definition query_lossless (q : string) : query :=
  Query None (Some (lit q)) (Some (lit "true")) None None None None.

Definition png (name : string) (data : bytes) : file :=
  File (lit name) data (lit "image/png").

Fixpoint before_dot (p : jsstring) : jsstring :=
  match p with
  | [] => []
  | c :: p' => if (c =? 46)%N then [] else c :: before_dot p'
  end.

(** A stand-in for the libraries: the name of a path is what is before its
    first dot, and the encoder rejects an empty buffer and returns any
    other buffer as it is. *)
Definition sample_libraries : Libraries :=
  {| path_parse_name := before_dot;
     sharp_rotate_webp := fun buf _ =>
       match buf with
       | [] => Rejected (JsError (Some (lit "Input buffer is empty")))
       | _ => Resolved buf
       end |}.

Definition sample_ambient : ambient :=
  Ambient 1700000000000%N (lit "0000-1111") (fun _ => 0).

(** A mapper on numbers that doubles its item and touches nothing. *)
Definition doubling : Mapper.async_fn (Item:=nat) (R:=nat) (W:=unit) :=
  {| Mapper.on_call := fun _ _ w => w;
     Mapper.on_settle := fun x _ w => (Resolved (2 * x), w) |}.

Definition empty_world : world := World fresh_response [] [].

Definition sample_opts : convertOpts := resolveOptions default_config no_query.

(** Two uploads, the first of which the sample encoder rejects. *)
Definition bad_then_good : list file := [png "a.png" []; png "b.png" [1%N]].

(** Three uploads, two good ones around a bad one. *)
Definition two_good_one_bad : list file :=
  [png "a.png" [1%N]; png "b c.png" []; png "d.png" [2%N; 3%N]].

Definition empty_buffer_error : jserror :=
  JsError (Some (lit "Input buffer is empty")).

(** One upload the sample encoder rejects, asked for as multipart. *)
Definition failing_multipart : request :=
  Request [png "a.png" []] (query_output "multipart").

Definition zip_of_three : request :=
  Request two_good_one_bad (query_output "zip").

Definition lossless_request : request :=
  Request [png "a.png" [1%N]] (query_lossless "30").

(** ** The upload filter and the global error handler *)

(** The characters the dot of a regular expression does not match. *)
Definition is_line_terminator (c : char16) : bool :=
  ((c =? 10) || (c =? 13) || (c =? 8232) || (c =? 8233))%N.

(** [isImageMime], line 27: [/^image\/.+/i.test(mime || '')].  Without
    the [u] flag, ignoring case relates a character to the ASCII letters of
    the pattern only if it is that letter in either case. *)
Definition isImageMime (mime : option jsstring) : bool :=
  let s := default [] mime in
  str_eqb (toLowerCase (take 6 s)) (lit "image/")
  && match drop 6 s with
     | c :: _ => negb (is_line_terminator c)
     | [] => false
     end.

(** What reaches the error handler: a [MulterError] with its code and the
    message the library gave it, or anything else. *)
Inductive thrown :=
| Multer (code message : jsstring)
| Other (err : jserror).

(** The limits given to the upload middleware, lines 14-15. *)
Record upload_limits := UploadLimits {
  MAX_FILES : N;
  MAX_FILE_SIZE_MB : N
}.

Definition default_limits : upload_limits := UploadLimits 50 50.

(** [fileFilter], lines 94-97: [None] accepts the file, [Some code] refuses
    it with [new multer.MulterError(code, file.fieldname)]. *)
Definition fileFilter (mimetype : option jsstring) : option jsstring :=
  if isImageMime mimetype then None else Some (lit "LIMIT_UNEXPECTED_FILE").

(** The codes a [MulterError] of the library can carry. *)
Definition multer_codes : list jsstring :=
  [lit "LIMIT_PART_COUNT"; lit "LIMIT_FILE_SIZE"; lit "LIMIT_FILE_COUNT";
   lit "LIMIT_FIELD_KEY"; lit "LIMIT_FIELD_VALUE"; lit "LIMIT_FIELD_COUNT";
   lit "LIMIT_UNEXPECTED_FILE"; lit "MISSING_FIELD_NAME"].

(** [map[err.code] || err.message], lines 229-234, for the codes of
    Multer (a code that named a property of [Object.prototype] would find
    that property in [map]). *)
Definition multer_text (l : upload_limits) (code message : jsstring) : jsstring :=
  if str_eqb code (lit "LIMIT_FILE_SIZE") then
    lit "File too large. Max " ++ decimal (MAX_FILE_SIZE_MB l) ++ lit "MB per file."
  else if str_eqb code (lit "LIMIT_FILE_COUNT") then
    lit "Too many files. Max " ++ decimal (MAX_FILES l) ++ lit "."
  else if str_eqb code (lit "LIMIT_UNEXPECTED_FILE") then
    lit "Unsupported file. Only images are allowed."
  else message.

(** The global error handler, lines 227-240. *)
Definition globalErrorHandler (l : upload_limits) (err : thrown) (w : world) : world :=
  match err with
  | Multer code message =>
      on_res (fun r =>
        send_json [("error", JString (multer_text l code message));
                   ("code", JString code)]%string
                  (status 400 r)) w
  | Other e => errorHandler e w
  end.

(** ** Instrumented mappers *)

(** A mapper that also records, in order, the indices it is called on. *)
Definition with_call_log {Item R W : Type} (m : Mapper.async_fn (Item:=Item) (R:=R) (W:=W))
    : Mapper.async_fn (Item:=Item) (R:=R) (W:=list nat * W) :=
  {| Mapper.on_call := fun x idx lw => (fst lw ++ [idx], Mapper.on_call m x idx (snd lw));
     Mapper.on_settle := fun x idx lw =>
       let '(out, w) := Mapper.on_settle m x idx (snd lw) in (out, (fst lw, w)) |}.

(** The encoder call made for a file under given options. *)
Definition encoder_call (opts : convertOpts) (f : file) : bytes * webpOptions :=
  (buffer f, webp_options opts).

(** Strings made of white space only. *)
Definition blank (s : jsstring) : Prop := Forall (fun c => is_space c = true) s.

(** A query whose only parameter is [quality=n], written in decimal. *)
Definition query_quality_number (n : nat) : query :=
  Query None (Some (decimal (N.of_nat n))) None None None None None.

(** The number [n] brought into the range of the quality. *)
Definition quality_of (n : nat) : Q := inject_Z (Z.of_nat (1 `max` (n `min` 100))).

Definition with_output (q : query) (s : jsstring) : query :=
  Query (Some s) (q_quality q) (q_lossless q) (q_nearLossless q)
        (q_alphaQuality q) (q_effort q) (q_smartSubsample q).

(** A configuration with [CONCURRENCY=0]. *)
Definition zero_concurrency : config :=
  {| DEFAULT_QUALITY := 80; DEFAULT_EFFORT := 4; CONVERT_CONCURRENCY := 0 |}.

(** The headers of the three kinds of answer, in the order they are set. *)
Definition single_headers (name : jsstring) : list (string * jsstring) :=
  [("Content-Type"%string, lit "image/webp");
   ("Content-Disposition"%string, attachment name);
   ("Cache-Control"%string, lit "no-store")].

Definition zip_headers (now : N) : list (string * jsstring) :=
  [("Content-Type"%string, lit "application/zip");
   ("Content-Disposition"%string,
    attachment (lit "converted_" ++ decimal now ++ lit ".zip"));
   ("Cache-Control"%string, lit "no-store")].

Definition multipart_headers (boundary : jsstring) : list (string * jsstring) :=
  [("Content-Type"%string, lit "multipart/mixed; boundary=" ++ boundary);
   ("Cache-Control"%string, lit "no-store")].

Definition single_upload : request :=
  Request [png "a.png" [1%N]] no_query.

(** The end of the run of [mapWithLimit] with one worker on two uploads,
    the first of which fails, under a worker that lets the failure
    through. *)
Definition failed_run : Mapper.state (R:=bytes) (W:=world) :=
  Mapper.run (bare_worker (H:=sample_libraries) sample_opts) bad_then_good
    (fun _ => 0) 2 0
    (Mapper.init (bare_worker (H:=sample_libraries) sample_opts) bad_then_good 1
       empty_world).

(** The state after the first settlement of an instrumented run of two
    workers on three numbers. *)
Definition logged_run : Mapper.state (R:=nat) (W:=list nat * unit) :=
  Mapper.run (with_call_log doubling) [1; 2; 3] (fun _ => 0) 1 0
    (Mapper.init (with_call_log doubling) [1; 2; 3] 2 ([], ())).

(** The same surroundings with another order of completion. *)
Definition with_completion (env : ambient) (order : nat -> nat) : ambient :=
  Ambient (Date_now env) (randomUUID env) order.

(** One upload whose name is two Chinese characters. *)
Definition unicode_upload : request :=
  Request [File ([22270; 29255]%N ++ lit ".png") [1%N] (lit "image/png")] no_query.

(** * Properties *)

(** ** The name sanitizer *)

Section Sanitize.

Lemma underscore_plain : is_reserved underscore = false /\ is_space underscore = false.
Proof. split; reflexivity. Qed.

Lemma dash_plain : is_reserved dash = false /\ is_space dash = false.
Proof. split; reflexivity. Qed.

Lemma replace_reserved_clean s :
  Forall (fun c => is_reserved c = false) (replace_reserved s).
Proof.
  induction s as [|c s IH]; simpl; constructor; auto.
  destruct (is_reserved c) eqn:E; [reflexivity | exact E].
Qed.

Lemma replace_reserved_id s :
  Forall (fun c => is_reserved c = false) s -> replace_reserved s = s.
Proof.
  induction 1 as [|c s Hc _ IH]; simpl; [reflexivity|].
  rewrite Hc. f_equal. exact IH.
Qed.

Lemma replace_spaces_from_keeps_plain b s :
  Forall (fun c => is_reserved c = false) s ->
  Forall (fun c => is_reserved c = false) (replace_spaces_from b s).
Proof.
  intros H. revert b. induction H as [|c s Hc _ IH]; intros b; simpl.
  - constructor.
  - destruct (is_space c); [destruct b|]; repeat constructor; auto.
Qed.

Lemma replace_spaces_from_clean b s :
  Forall (fun c => is_space c = false) (replace_spaces_from b s).
Proof.
  revert b. induction s as [|c s IH]; intros b; simpl.
  - constructor.
  - destruct (is_space c) eqn:E; [destruct b|]; repeat constructor; auto.
Qed.

Lemma replace_spaces_from_id b s :
  Forall (fun c => is_space c = false) s -> replace_spaces_from b s = s.
Proof.
  intros H. revert b. induction H as [|c s Hc _ IH]; intros b; simpl.
  - reflexivity.
  - rewrite Hc. f_equal. apply IH.
Qed.

Lemma replace_spaces_from_nonempty s :
  s <> [] -> replace_spaces_from false s <> [].
Proof.
  destruct s as [|c s]; [congruence|]. intros _. simpl.
  destruct (is_space c); discriminate.
Qed.

Lemma or_else_nonempty a : or_else a (lit "image") <> [].
Proof. destruct a; simpl; discriminate. Qed.

Lemma sanitize_reserved_free x :
  Forall (fun c => is_reserved c = false) (sanitizeFilename x).
Proof.
  unfold sanitizeFilename, slice0, replace_spaces.
  apply Forall_take, replace_spaces_from_keeps_plain, replace_reserved_clean.
Qed.

Lemma sanitize_space_free x :
  Forall (fun c => is_space c = false) (sanitizeFilename x).
Proof.
  unfold sanitizeFilename, slice0, replace_spaces.
  apply Forall_take, replace_spaces_from_clean.
Qed.

Lemma sanitize_length x : length (sanitizeFilename x) <= 120.
Proof. unfold sanitizeFilename, slice0. rewrite length_take. lia. Qed.

Lemma sanitize_nonempty x : sanitizeFilename x <> [].
Proof.
  unfold sanitizeFilename, slice0, replace_spaces.
  pose proof (or_else_nonempty x) as H.
  assert (H1 : replace_reserved (or_else x (lit "image")) <> []).
  { destruct (or_else x (lit "image")); [congruence | discriminate]. }
  apply replace_spaces_from_nonempty in H1.
  destruct (replace_spaces_from false _); [congruence | discriminate].
Qed.

(** C8. [sanitizeFilename] is idempotent, and its result holds none of the
    reserved characters (slash, backslash, question mark, percent, star,
    colon, bar, double quote, angle brackets), no white space at all (so no
    run of it), at most 120 code units, and at least one. *)
Theorem sanitizeFilename_idempotent_and_safe (x : jsstring) :
  sanitizeFilename (sanitizeFilename x) = sanitizeFilename x
  /\ (forall c, In c (sanitizeFilename x) -> is_reserved c = false)
  /\ (forall c, In c (sanitizeFilename x) -> is_space c = false)
  /\ length (sanitizeFilename x) <= 120
  /\ 1 <= length (sanitizeFilename x).
Proof.
  pose proof (sanitize_reserved_free x) as Hr.
  pose proof (sanitize_space_free x) as Hs.
  pose proof (sanitize_length x) as Hl.
  pose proof (sanitize_nonempty x) as Hn.
  split; [|split; [|split; [|split]]].
  - set (y := sanitizeFilename x) in *.
    unfold sanitizeFilename at 1, slice0, replace_spaces.
    assert (Hy : or_else y (lit "image") = y) by (destruct y; [congruence | reflexivity]).
    rewrite Hy, (replace_reserved_id y Hr), (replace_spaces_from_id false y Hs).
    apply take_ge. exact Hl.
  - intros c Hc. rewrite Forall_forall in Hr. apply Hr, list_elem_of_In, Hc.
  - intros c Hc. rewrite Forall_forall in Hs. apply Hs, list_elem_of_In, Hc.
  - exact Hl.
  - destruct (sanitizeFilename x); [congruence | simpl; lia].
Qed.

(** A clean name passes unchanged. *)
Lemma sanitizeFilename_clean x :
  x <> [] ->
  length x <= 120 ->
  (forall c, In c x -> is_reserved c = false /\ is_space c = false) ->
  sanitizeFilename x = x.
Proof.
  intros Hne Hlen Hclean.
  assert (Hr : Forall (fun c => is_reserved c = false) x).
  { apply Forall_forall. intros c Hc. apply Hclean, list_elem_of_In, Hc. }
  assert (Hs : Forall (fun c => is_space c = false) x).
  { apply Forall_forall. intros c Hc. apply Hclean, list_elem_of_In, Hc. }
  unfold sanitizeFilename, slice0, replace_spaces.
  replace (or_else x (lit "image")) with x by (destruct x; [congruence | reflexivity]).
  rewrite (replace_reserved_id x Hr), (replace_spaces_from_id false x Hs).
  apply take_ge, Hlen.
Qed.

End Sanitize.

(** ** Option resolution *)

Lemma Math_max_cases a b : Math_max a b = a \/ Math_max a b = b.
Proof. unfold Math_max. destruct (Qle_bool a b); auto. Qed.

Lemma clamp_not_a_number s min max def :
  of_string s = NaN -> clamp (Some s) min max def = def.
Proof. unfold clamp. simpl. intros ->. reflexivity. Qed.

Lemma clamp_absent min max def : clamp None min max def = def.
Proof. reflexivity. Qed.

(** A finite input never resolves to the default: it is clamped. *)
Lemma clamp_finite s n min max def :
  of_string s = Finite n ->
  clamp (Some s) min max def = Some (Math_min max (Math_max min n)).
Proof. unfold clamp. simpl. intros ->. reflexivity. Qed.

(** The quality [0] is below the range: [clamp] raises it to the minimum
    [1], it does not fall back to the default [80]. *)
Lemma quality_zero_is_not_the_default :
  quality (resolveOptions default_config (query_quality "0")) = Some 1%Q
  /\ quality (resolveOptions default_config (query_quality "0")) <> Some 80%Q.
Proof. split; [reflexivity | discriminate]. Qed.

(** C7 (amended). Quality resolution maps the input [0] to the clamped
    minimum [1], [150] to the clamped maximum [100], the non-numeric [abc]
    to the default [80], and the in-range [57] to itself. *)
Theorem quality_resolution :
  quality (resolveOptions default_config (query_quality "0")) = Some 1%Q
  /\ quality (resolveOptions default_config (query_quality "150")) = Some 100%Q
  /\ quality (resolveOptions default_config (query_quality "abc"))
     = Some (DEFAULT_QUALITY default_config)
  /\ DEFAULT_QUALITY default_config = 80%Q
  /\ quality (resolveOptions default_config (query_quality "57")) = Some 57%Q.
Proof. repeat split; reflexivity. Qed.

(** ** The health route *)

(** The body of [GET /health] has no property [uptimeSeconds]. *)
Lemma health_has_no_uptimeSeconds :
  ~ (exists j v, body (health 5) = [JsonText j]
                 /\ field "ok" j = Some (JBool true)
                 /\ field "uptimeSeconds" j = Some (JNumber v)
                 /\ (0 <= v)%Q).
Proof.
  intros (j & v & Hb & _ & Hf & _).
  injection Hb as <-. discriminate Hf.
Qed.

(** C9 (amended). [GET /health] answers 200 with a JSON body whose [ok] is
    [true] and whose property [uptime] holds the uptime of the process, a
    non-negative number as long as [process.uptime()] is one. *)
Theorem health_ok (uptime : Q) :
  (0 <= uptime)%Q ->
  exists j v,
    statusCode (health uptime) = 200
    /\ body (health uptime) = [JsonText j]
    /\ ended (health uptime) = true
    /\ field "ok" j = Some (JBool true)
    /\ field "uptime" j = Some (JNumber v)
    /\ v = uptime /\ (0 <= v)%Q.
Proof.
  intros Hu. eexists _, uptime. repeat split; [reflexivity.. | exact Hu].
Qed.

Lemma health_ok_witness :
  exists j v,
    statusCode (health 5) = 200
    /\ body (health 5) = [JsonText j]
    /\ ended (health 5) = true
    /\ field "ok" j = Some (JBool true)
    /\ field "uptime" j = Some (JNumber v)
    /\ v = 5%Q /\ (0 <= v)%Q.
Proof. apply (health_ok 5). discriminate. Defined.

(** ** The branch taken by [POST /convert] *)

Lemma str_eqb_eq a b : str_eqb a b = true <-> a = b.
Proof.
  revert b. induction a as [|x a IH]; intros [|y b]; simpl; try (split; congruence).
  unfold char_eqb. rewrite andb_true_iff, N.eqb_eq, IH.
  split; [intros [-> ->]; reflexivity | intros [= -> ->]; auto].
Qed.

Lemma str_eqb_refl a : str_eqb a a = true.
Proof. apply str_eqb_eq. reflexivity. Qed.

Lemma dispatch_auto_one : dispatch 1 (lit "auto") = Single.
Proof. reflexivity. Qed.

Lemma dispatch_auto_many n : 1 < n -> dispatch n (lit "auto") = Archive.
Proof.
  intros Hn. unfold dispatch.
  destruct (Nat.eqb_spec n 0); [lia|].
  destruct (Nat.ltb_spec 1 n); [|lia].
  reflexivity.
Qed.

Lemma dispatch_zip n : 0 < n -> dispatch n (lit "zip") = Archive.
Proof.
  intros Hn. unfold dispatch. destruct (Nat.eqb_spec n 0); [lia|]. reflexivity.
Qed.

Lemma dispatch_multipart n : 0 < n -> dispatch n (lit "multipart") = Multipart.
Proof.
  intros Hn. unfold dispatch. destruct (Nat.eqb_spec n 0); [lia|].
  destruct (Nat.ltb_spec 1 n); simpl; rewrite ?andb_false_r; reflexivity.
Qed.

(** With several files, a mode that is none of the three is refused. *)
Lemma dispatch_other_many n mode :
  1 < n ->
  mode <> lit "zip" -> mode <> lit "auto" -> mode <> lit "multipart" ->
  dispatch n mode = InvalidMode.
Proof.
  intros Hn Hz Ha Hm. unfold dispatch.
  destruct (Nat.eqb_spec n 0); [lia|].
  destruct (Nat.eqb_spec n 1); [lia|].
  destruct (str_eqb mode (lit "zip")) eqn:Ez; [apply str_eqb_eq in Ez; contradiction|].
  destruct (str_eqb mode (lit "auto")) eqn:Ea; [apply str_eqb_eq in Ea; contradiction|].
  destruct (str_eqb mode (lit "multipart")) eqn:Em; [apply str_eqb_eq in Em; contradiction|].
  reflexivity.
Qed.

(** With one file, every mode but [zip] and [multipart] takes the
    single-file branch: line 140 does not ask for [auto]. *)
Lemma dispatch_other_one mode :
  mode <> lit "zip" -> mode <> lit "multipart" -> dispatch 1 mode = Single.
Proof.
  intros Hz Hm. unfold dispatch. simpl.
  destruct (str_eqb mode (lit "zip")) eqn:Ez; [apply str_eqb_eq in Ez; contradiction|].
  destruct (str_eqb mode (lit "multipart")) eqn:Em; [apply str_eqb_eq in Em; contradiction|].
  rewrite ?andb_false_r. reflexivity.
Qed.

Section ConvertFacts.
Context `{Libraries}.
Variable cfg : config.
Variable env : ambient.

(** A refused request reaches the encoder not once. *)
Lemma invalid_mode_no_conversion req :
  dispatch (length (files req)) (outputMode (params req)) = InvalidMode ->
  statusCode (res (convert cfg env req)) = 400
  /\ codec_calls (convert cfg env req) = [].
Proof. intros Hd. unfold convert. rewrite Hd. split; reflexivity. Qed.

Lemma statusCode_errorHandler err w :
  statusCode (res w) = 200 -> statusCode (res (errorHandler err w)) <> 400.
Proof.
  intros Hw. unfold errorHandler. destruct (headersSent (res w)); simpl; lia.
Qed.

Lemma codec_calls_errorHandler err w :
  codec_calls (errorHandler err w) = codec_calls w.
Proof. unfold errorHandler. destruct (headersSent (res w)); reflexivity. Qed.

Lemma codec_calls_convert_single opts f w :
  codec_calls (convert_single opts f w)
  = codec_calls w ++ [(buffer f, webp_options opts)].
Proof.
  unfold convert_single.
  destruct (convertBufferToWebp (buffer f) opts); [|apply codec_calls_errorHandler].
  destruct (valid_header_value (attachment (outName f)));
    [reflexivity | apply codec_calls_errorHandler].
Qed.

Lemma statusCode_convert_single opts f w :
  statusCode (res w) = 200 ->
  statusCode (res (convert_single opts f w)) <> 400.
Proof.
  intros Hw. unfold convert_single.
  destruct (convertBufferToWebp (buffer f) opts).
  - destruct (valid_header_value (attachment (outName f))).
    + simpl. lia.
    + apply statusCode_errorHandler. exact Hw.
  - apply statusCode_errorHandler. exact Hw.
Qed.

(** C6 (the code at the failing input). One file sent with [output=bogus]
    is not refused: the handler takes the single-file branch, calls the
    encoder once and does not answer 400. *)
Theorem bogus_mode_with_one_file_is_converted (f : file) :
  let req := Request [f] (query_output "bogus") in
  dispatch (length (files req)) (outputMode (params req)) = Single
  /\ codec_calls (convert cfg env req)
     = [(buffer f, webp_options (resolveOptions cfg (params req)))]
  /\ statusCode (res (convert cfg env req)) <> 400.
Proof.
  intros req. split; [reflexivity|].
  unfold convert. change (dispatch _ _) with Single. simpl files.
  split.
  - apply codec_calls_convert_single.
  - apply statusCode_convert_single. reflexivity.
Qed.

End ConvertFacts.

(** ** The mapper: executions and their invariants *)

Section MapperFacts.
Context {Item R W : Type}.
Variable mapper : Mapper.async_fn (Item:=Item) (R:=R) (W:=W).
Variable items : list Item.

Local Abbreviation state := (Mapper.state (R:=R) (W:=W)).
Local Abbreviation step := (Mapper.step mapper items).
Local Abbreviation settle := (Mapper.settle mapper items).
Local Abbreviation take_next := (Mapper.take_next mapper items).
Local Abbreviation init := (Mapper.init mapper items).
Local Abbreviation run := (Mapper.run mapper items).
Local Abbreviation in_flight := Mapper.in_flight.
Local Abbreviation awaited := Mapper.awaited.
Local Abbreviation Awaiting := Mapper.Awaiting.
Local Abbreviation Returned := Mapper.Returned.
Local Abbreviation Thrown := Mapper.Thrown.

Local Abbreviation reachable := (Mapper.reachable mapper items).

Lemma awaited_Some wk idx : awaited wk = Some idx <-> wk = Awaiting idx.
Proof. destruct wk; simpl; split; congruence. Qed.

Lemma elem_of_in_flight (st : state) idx :
  idx ∈ in_flight st <-> exists k, Mapper.workers st !! k = Some (Awaiting idx).
Proof.
  unfold in_flight. rewrite list_elem_of_omap. split.
  - intros (wk & Hin & Hw). apply awaited_Some in Hw as ->.
    apply list_elem_of_lookup in Hin. exact Hin.
  - intros (k & Hk). exists (Awaiting idx). split; [|reflexivity].
    apply list_elem_of_lookup. eauto.
Qed.

(** Replacing the worker at position [k], which awaits [idx]. *)
Lemma in_flight_replace (ws : list Mapper.worker) k idx wk :
  ws !! k = Some (Awaiting idx) ->
  exists l1 l2,
    omap awaited ws = l1 ++ idx :: l2
    /\ omap awaited (<[k := wk]> ws)
       = l1 ++ match awaited wk with Some i => [i] | None => [] end ++ l2.
Proof.
  intros Hk.
  exists (omap awaited (take k ws)), (omap awaited (drop (S k) ws)).
  pose proof (lookup_lt_Some _ _ _ Hk) as Hlt.
  split.
  - rewrite <- (take_drop_middle ws k _ Hk) at 1.
    rewrite omap_app. reflexivity.
  - rewrite insert_take_drop by exact Hlt.
    rewrite omap_app. simpl. destruct (awaited wk); reflexivity.
Qed.

Lemma awaiting_from_spec b (ws : list Mapper.worker) k :
  k ∈ Mapper.awaiting_from b ws
  <-> b <= k /\ exists idx, ws !! (k - b) = Some (Awaiting idx).
Proof.
  revert b. induction ws as [|wk ws IH]; intros b; simpl.
  - rewrite elem_of_nil. split; [tauto | intros (_ & idx & Hk); discriminate].
  - assert (Hrest : k ∈ Mapper.awaiting_from (S b) ws
                     <-> b < k /\ exists idx, (wk :: ws) !! (k - b) = Some (Awaiting idx)).
    { rewrite IH. split.
      - intros (Hle & idx & Hk). split; [lia|]. exists idx.
        replace (k - b) with (S (k - S b)) by lia. exact Hk.
      - intros (Hlt & idx & Hk). split; [lia|]. exists idx.
        replace (k - b) with (S (k - S b)) in Hk by lia. exact Hk. }
    destruct wk as [i| |]; rewrite ?elem_of_cons, Hrest.
    + split.
      * intros [-> | (Hlt & Hex)]; [|split; [lia | exact Hex]].
        split; [lia|]. exists i. rewrite Nat.sub_diag. reflexivity.
      * intros (Hle & idx & Hk).
        destruct (decide (k = b)) as [->|Hne]; [left; reflexivity|].
        right. split; [lia | eauto].
    + split.
      * intros (Hlt & Hex). split; [lia | exact Hex].
      * intros (Hle & idx & Hk).
        destruct (decide (k = b)) as [->|Hne].
        { rewrite Nat.sub_diag in Hk. discriminate. }
        split; [lia | eauto].
    + split.
      * intros (Hlt & Hex). split; [lia | exact Hex].
      * intros (Hle & idx & Hk).
        destruct (decide (k = b)) as [->|Hne].
        { rewrite Nat.sub_diag in Hk. discriminate. }
        split; [lia | eauto].
Qed.

Lemma elem_of_pending (st : state) k :
  k ∈ Mapper.pending st <-> exists idx, Mapper.workers st !! k = Some (Awaiting idx).
Proof.
  unfold Mapper.pending. rewrite awaiting_from_spec, Nat.sub_0_r.
  split; [intros [_ Hk]; exact Hk | intros Hk; split; [lia | exact Hk]].
Qed.

Lemma length_awaiting_from b (ws : list Mapper.worker) :
  length (Mapper.awaiting_from b ws) = length (omap awaited ws).
Proof.
  revert b. induction ws as [|[i| |] ws IH]; intros b; simpl; auto.
Qed.

Lemma length_pending (st : state) :
  length (Mapper.pending st) = length (in_flight st).
Proof. apply length_awaiting_from. Qed.

(** *** The initial state *)

Local Abbreviation state0 w0 :=
  (Mapper.State 0 (replicate (length items) (@None R)) [] None w0).

Lemma iter_start_worker w0 j :
  j <= length items ->
  let st := Nat.iter j (Mapper.start_worker mapper items) (state0 w0) in
  Mapper.cursor st = j
  /\ Mapper.results st = replicate (length items) None
  /\ Mapper.workers st = Awaiting <$> seq 0 j
  /\ Mapper.rejection st = None.
Proof.
  induction j as [|j IH]; intros Hj; [repeat split|].
  destruct IH as (Hc & Hr & Hw & He); [lia|].
  change (Nat.iter (S j) (Mapper.start_worker mapper items) (state0 w0))
    with (Mapper.start_worker mapper items
            (Nat.iter j (Mapper.start_worker mapper items) (state0 w0))).
  remember (Nat.iter j (Mapper.start_worker mapper items) (state0 w0)) as st.
  unfold Mapper.start_worker, Mapper.take_next. rewrite Hc.
  destruct (lookup_lt_is_Some_2 items j) as [x Hx]; [lia|]. rewrite Hx.
  rewrite seq_S, fmap_app.
  cbn [Mapper.cursor Mapper.results Mapper.workers Mapper.rejection].
  rewrite Hr, Hw, He. repeat split.
Qed.

Lemma init_spec limit w0 :
  Mapper.cursor (init limit w0) = limit `min` length items
  /\ Mapper.results (init limit w0) = replicate (length items) None
  /\ Mapper.workers (init limit w0) = Awaiting <$> seq 0 (limit `min` length items)
  /\ Mapper.rejection (init limit w0) = None.
Proof. apply iter_start_worker. lia. Qed.

Lemma omap_awaited_Awaiting (l : list nat) : omap awaited (Awaiting <$> l) = l.
Proof. induction l as [|i l IH]; simpl; [reflexivity|]. f_equal. exact IH. Qed.

Lemma in_flight_init limit w0 :
  in_flight (init limit w0) = seq 0 (limit `min` length items).
Proof.
  unfold in_flight. destruct (init_spec limit w0) as (_ & _ & -> & _).
  apply omap_awaited_Awaiting.
Qed.

(** *** One step *)

Lemma settle_Some k (st st' : state) :
  settle k st = Some st' ->
  exists idx x,
    Mapper.workers st !! k = Some (Awaiting idx)
    /\ items !! idx = Some x
    /\ let w := snd (Mapper.on_settle mapper x idx (Mapper.world st)) in
       match fst (Mapper.on_settle mapper x idx (Mapper.world st)) with
       | Resolved v =>
           st' = Mapper.State (S (Mapper.cursor st))
                   (<[idx := Some v]> (Mapper.results st))
                   (<[k := fst (take_next (Mapper.cursor st) w)]> (Mapper.workers st))
                   (Mapper.rejection st)
                   (snd (take_next (Mapper.cursor st) w))
       | Rejected e =>
           st' = Mapper.State (Mapper.cursor st) (Mapper.results st)
                   (<[k := Thrown]> (Mapper.workers st))
                   (Some (default e (Mapper.rejection st))) w
       end.
Proof.
  unfold Mapper.settle.
  destruct (Mapper.workers st !! k) as [[idx| |]|] eqn:Hk; try discriminate.
  destruct (items !! idx) as [x|] eqn:Hx; try discriminate.
  intros Hs. exists idx, x. split; [reflexivity|]. split; [exact Hx|].
  destruct (Mapper.on_settle mapper x idx (Mapper.world st)) as [[v|e] w]; simpl.
  - destruct (take_next (Mapper.cursor st) w) as [wk w']. simpl. congruence.
  - congruence.
Qed.

Lemma take_next_cases idx w :
  (exists x, items !! idx = Some x /\ idx < length items
             /\ take_next idx w = (Awaiting idx, Mapper.on_call mapper x idx w))
  \/ (items !! idx = None /\ length items <= idx /\ take_next idx w = (Returned, w)).
Proof.
  unfold Mapper.take_next. destruct (items !! idx) as [x|] eqn:Hx.
  - left. exists x. split; [reflexivity|]. split; [|reflexivity].
    eapply lookup_lt_Some, Hx.
  - right. split; [reflexivity|]. split; [|reflexivity].
    apply lookup_ge_None, Hx.
Qed.

(** Induction over the states of an execution. *)
Lemma reachable_invariant limit w0 (P : state -> Prop) :
  P (init limit w0) ->
  (forall st st', reachable limit w0 st -> P st -> step st st' -> P st') ->
  forall st, reachable limit w0 st -> P st.
Proof.
  intros H0 Hstep st Hr. unfold Mapper.reachable in Hr.
  eapply (rtc_ind_r (fun st => reachable limit w0 st /\ P st) (init limit w0));
    [split; [apply rtc_refl | exact H0] | | exact Hr].
  intros y z Hy Hyz [Hry HP]. split.
  - eapply rtc_r; eassumption.
  - eapply Hstep; eassumption.
Qed.

Lemma step_length_workers (st st' : state) :
  step st st' -> length (Mapper.workers st') = length (Mapper.workers st).
Proof.
  intros [k Hs]. apply settle_Some in Hs as (idx & x & _ & _ & Hs). simpl in Hs.
  destruct (fst (Mapper.on_settle mapper x idx (Mapper.world st)));
    subst st'; simpl; apply length_insert.
Qed.

Lemma reachable_length_workers limit w0 (st : state) :
  reachable limit w0 st ->
  length (Mapper.workers st) = limit `min` length items.
Proof.
  revert st. apply reachable_invariant.
  - destruct (init_spec limit w0) as (_ & _ & -> & _).
    rewrite length_fmap, length_seq. reflexivity.
  - intros st st' _ IH Hstep. rewrite (step_length_workers _ _ Hstep). exact IH.
Qed.

Lemma length_omap_awaited (ws : list Mapper.worker) :
  length (omap awaited ws) <= length ws.
Proof.
  induction ws as [|wk ws IH]; [reflexivity|].
  change (omap awaited (wk :: ws))
    with (match awaited wk with
          | Some i => i :: omap awaited ws
          | None => omap awaited ws
          end).
  destruct (awaited wk); simpl; lia.
Qed.

(** The in-flight invocations are on items of the list. *)
Lemma step_in_flight_bound (st st' : state) :
  step st st' ->
  (forall idx, idx ∈ in_flight st -> idx < length items) ->
  forall idx, idx ∈ in_flight st' -> idx < length items.
Proof.
  intros [k Hs] Hb idx Hin.
  apply settle_Some in Hs as (i & x & Hk & Hx & Hs). simpl in Hs.
  apply elem_of_in_flight in Hin as [k' Hk'].
  assert (Hold : forall wk, wk <> Awaiting idx ->
            <[k := wk]> (Mapper.workers st) !! k' = Some (Awaiting idx) ->
            idx < length items).
  { intros wk Hwk Hl. apply list_lookup_insert_Some in Hl as [(_ & Heq & _)|[_ Hl]].
    - congruence.
    - apply Hb, elem_of_in_flight. eauto. }
  destruct (fst (Mapper.on_settle mapper x i (Mapper.world st))); subst st'; simpl in Hk'.
  - destruct (take_next_cases (Mapper.cursor st)
                (snd (Mapper.on_settle mapper x i (Mapper.world st))))
      as [(x' & _ & Hlt & Hc)|(_ & _ & Hc)]; rewrite Hc in Hk'; simpl in Hk'.
    + destruct (decide (idx = Mapper.cursor st)) as [->|Hne]; [exact Hlt|].
      eapply Hold; [|exact Hk']. congruence.
    + eapply Hold; [|exact Hk']. discriminate.
  - eapply Hold; [|exact Hk']. discriminate.
Qed.

Lemma reachable_in_flight_bound limit w0 (st : state) :
  reachable limit w0 st ->
  forall idx, idx ∈ in_flight st -> idx < length items.
Proof.
  revert st.
  apply (reachable_invariant limit w0
           (fun st => forall idx, idx ∈ in_flight st -> idx < length items)).
  - intros idx. rewrite in_flight_init, elem_of_seq. lia.
  - intros st st' _ IH Hstep. eapply step_in_flight_bound; eassumption.
Qed.

(** *** Every settlement ends one invocation *)

Lemma step_measure (st st' : state) :
  step st st' ->
  length (in_flight st) + (length items - Mapper.cursor st)
  = S (length (in_flight st') + (length items - Mapper.cursor st')).
Proof.
  intros [k Hs]. apply settle_Some in Hs as (idx & x & Hk & Hx & Hs). simpl in Hs.
  unfold in_flight.
  destruct (fst (Mapper.on_settle mapper x idx (Mapper.world st))); subst st'; simpl.
  - destruct (in_flight_replace _ k idx
                (fst (take_next (Mapper.cursor st)
                        (snd (Mapper.on_settle mapper x idx (Mapper.world st))))) Hk)
      as (l1 & l2 & -> & ->).
    destruct (take_next_cases (Mapper.cursor st)
                (snd (Mapper.on_settle mapper x idx (Mapper.world st))))
      as [(x' & _ & Hlt & ->)|(_ & Hge & ->)];
      simpl; rewrite !length_app; simpl; lia.
  - destruct (in_flight_replace _ k idx Thrown Hk) as (l1 & l2 & -> & ->).
    simpl. rewrite !length_app. simpl. lia.
Qed.

Lemma settle_is_Some k idx (st : state) :
  Mapper.workers st !! k = Some (Awaiting idx) ->
  idx < length items ->
  exists st', settle k st = Some st'.
Proof.
  intros Hk Hlt. unfold Mapper.settle. rewrite Hk.
  destruct (lookup_lt_is_Some_2 items idx Hlt) as [x ->].
  destruct (Mapper.on_settle mapper x idx (Mapper.world st)) as [[v|e] w].
  - destruct (take_next (Mapper.cursor st) w). eauto.
  - eauto.
Qed.

(** An execution cannot go on for ever: each of its steps uses up one unit
    of [in flight + not yet taken]; and it cannot halt while an invocation
    is in flight. *)
Lemma nsteps_measure k (st st' : state) :
  nsteps step k st st' ->
  length (in_flight st) + (length items - Mapper.cursor st)
  = k + (length (in_flight st') + (length items - Mapper.cursor st')).
Proof.
  induction 1 as [st|k st st1 st' Hstep _ IH]; [reflexivity|].
  rewrite (step_measure st st1 Hstep), IH. lia.
Qed.

Lemma step_progress limit w0 (st : state) idx :
  Mapper.reachable mapper items limit w0 st ->
  idx ∈ in_flight st ->
  exists st', step st st'.
Proof.
  intros Hr Hin.
  pose proof (reachable_in_flight_bound limit w0 st Hr idx Hin) as Hlt.
  apply elem_of_in_flight in Hin as [k Hk].
  destruct (settle_is_Some k idx st Hk Hlt) as [st' Hs].
  exists st', k. exact Hs.
Qed.

(** A run follows the transition relation, and with enough fuel it ends in
    a state where nothing is pending. *)
Lemma run_steps sched fuel t (st : state) :
  rtc step st (run sched fuel t st).
Proof.
  revert t st. induction fuel as [|fuel IH]; intros t st; simpl; [apply rtc_refl|].
  destruct (Mapper.pending st !! _) as [k|]; [|apply rtc_refl].
  destruct (settle k st) as [st'|] eqn:Hs; [|apply rtc_refl].
  eapply rtc_l; [exists k; exact Hs | apply IH].
Qed.

Lemma run_quiescent sched fuel t (st : state) :
  (forall idx, idx ∈ in_flight st -> idx < length items) ->
  length (in_flight st) + (length items - Mapper.cursor st) <= fuel ->
  in_flight (run sched fuel t st) = [].
Proof.
  revert t st. induction fuel as [|fuel IH]; intros t st Hb Hm; simpl.
  - destruct (in_flight st); [reflexivity | simpl in Hm; lia].
  - destruct (Mapper.pending st !! (sched t `mod` length (Mapper.pending st)))
      as [k|] eqn:Hp.
    + assert (Hk : k ∈ Mapper.pending st) by (apply list_elem_of_lookup; eauto).
      apply elem_of_pending in Hk as [idx Hk].
      assert (Hin : idx ∈ in_flight st) by (apply elem_of_in_flight; eauto).
      destruct (settle_is_Some k idx st Hk (Hb idx Hin)) as [st' Hs].
      rewrite Hs. apply IH.
      * eapply step_in_flight_bound; [exists k; exact Hs | exact Hb].
      * pose proof (step_measure st st' (ex_intro _ k Hs)). lia.
    + apply lookup_ge_None in Hp.
      destruct (Mapper.pending st) as [|p ps] eqn:Hps.
      * apply nil_length_inv. rewrite <- length_pending, Hps. reflexivity.
      * exfalso.
        pose proof (Nat.mod_upper_bound (sched t) (length (p :: ps))) as Hlt.
        simpl in Hlt, Hp. lia.
Qed.

(** Conversely every execution is the run of some completion order. *)
Lemma run_ext sched sched' fuel t (st : state) :
  (forall u, t <= u -> sched u = sched' u) ->
  run sched fuel t st = run sched' fuel t st.
Proof.
  revert t st. induction fuel as [|fuel IH]; intros t st Hext; simpl; [reflexivity|].
  rewrite <- (Hext t) by lia.
  destruct (Mapper.pending st !! _) as [k|]; [|reflexivity].
  destruct (settle k st) as [st'|]; [|reflexivity].
  apply IH. intros u Hu. apply Hext. lia.
Qed.

Lemma steps_by_run (st st' : state) :
  rtc step st st' ->
  forall t, exists sched fuel, run sched fuel t st = st'.
Proof.
  induction 1 as [st|st st1 st' [k Hs] _ IH]; intros t.
  - exists (fun _ => 0), 0. reflexivity.
  - destruct (IH (S t)) as (sched & fuel & Hrun).
    assert (Hk : k ∈ Mapper.pending st).
    { apply settle_Some in Hs as (idx & x & Hk & _). apply elem_of_pending. eauto. }
    apply list_elem_of_lookup in Hk as [pos Hpos].
    pose proof (lookup_lt_Some _ _ _ Hpos) as Hlt.
    exists (fun u => if decide (u = t) then pos else sched u), (S fuel).
    simpl. rewrite decide_True by reflexivity.
    rewrite Nat.mod_small by exact Hlt. rewrite Hpos, Hs.
    rewrite <- Hrun. apply run_ext.
    intros u Hu. rewrite decide_False by lia. reflexivity.
Qed.

Lemma reachable_by_run limit w0 (st : state) :
  Mapper.reachable mapper items limit w0 st ->
  exists sched fuel, run sched fuel 0 (init limit w0) = st.
Proof. intros Hr. apply steps_by_run, Hr. Qed.

Lemma run_reachable sched limit w0 fuel :
  reachable limit w0 (run sched fuel 0 (init limit w0)).
Proof. apply run_steps. Qed.

Lemma run_ends sched limit w0 :
  in_flight (run sched (length items) 0 (init limit w0)) = [].
Proof.
  apply run_quiescent.
  - apply (reachable_in_flight_bound limit w0). apply rtc_refl.
  - rewrite in_flight_init, length_seq.
    destruct (init_spec limit w0) as (-> & _). lia.
Qed.

(** *** The bound on concurrency *)

Lemma in_flight_bound limit w0 (st : state) :
  reachable limit w0 st -> length (in_flight st) <= limit `min` length items.
Proof.
  intros Hr. rewrite <- (reachable_length_workers limit w0 st Hr).
  apply length_omap_awaited.
Qed.

(** With one worker, the invocation that executes is the last one started. *)
Lemma single_worker w0 (st : state) :
  1 <= length items ->
  reachable 1 w0 st ->
  exists wk, Mapper.workers st = [wk]
             /\ forall idx, wk = Awaiting idx -> Mapper.cursor st = S idx.
Proof.
  intros Hn. revert st.
  apply (reachable_invariant 1 w0
           (fun st => exists wk, Mapper.workers st = [wk]
              /\ forall idx, wk = Awaiting idx -> Mapper.cursor st = S idx)).
  - destruct (init_spec 1 w0) as (Hc & _ & Hw & _).
    replace (1 `min` length items) with 1 in Hc, Hw by lia.
    exists (Awaiting 0). split; [exact Hw|]. intros idx [= <-]. exact Hc.
  - intros st st' _ (wk & Hw & Hwk) [k Hs].
    apply settle_Some in Hs as (idx & x & Hk & Hx & Hs). simpl in Hs.
    rewrite Hw in Hk. destruct k as [|k]; [|discriminate]. injection Hk as ->.
    destruct (fst (Mapper.on_settle mapper x idx (Mapper.world st))); subst st'; simpl;
      rewrite Hw; simpl.
    + destruct (take_next_cases (Mapper.cursor st)
                  (snd (Mapper.on_settle mapper x idx (Mapper.world st))))
        as [(x' & _ & _ & ->)|(_ & _ & ->)]; simpl.
      * eexists. split; [reflexivity|]. intros i [= <-]. reflexivity.
      * eexists. split; [reflexivity|]. discriminate.
    + eexists. split; [reflexivity|]. discriminate.
Qed.

(** C3. With at least one item and a limit [K >= 1], no state of an
    execution has more than [K] invocations of the worker in progress; the
    execution starts with [min K N] of them, so with all [N] when
    [K >= N]; and with [K = 1] an invocation in progress is the only one,
    and it is the last one started. *)
Theorem mapWithLimit_concurrency_bound (limit : nat) (w0 : W) :
  1 <= length items ->
  1 <= limit ->
  (forall st, reachable limit w0 st -> length (in_flight st) <= limit)
  /\ in_flight (init limit w0) = seq 0 (limit `min` length items)
  /\ (length items <= limit ->
      in_flight (init limit w0) = seq 0 (length items))
  /\ (limit = 1 ->
      forall st idx, reachable limit w0 st -> idx ∈ in_flight st ->
        in_flight st = [idx] /\ Mapper.cursor st = S idx).
Proof.
  intros Hn Hk. split; [|split; [|split]].
  - intros st Hr. pose proof (in_flight_bound limit w0 st Hr). lia.
  - apply in_flight_init.
  - intros Hle. rewrite in_flight_init. f_equal. lia.
  - intros -> st idx Hr Hin.
    destruct (single_worker w0 st Hn Hr) as (wk & Hw & Hwk).
    unfold in_flight in *. rewrite Hw in *.
    destruct wk as [i| |]; simpl in Hin.
    + apply list_elem_of_singleton in Hin as ->. split; [reflexivity | auto].
    + apply elem_of_nil in Hin as [].
    + apply elem_of_nil in Hin as [].
Qed.

(** *** Executions of a mapper that never rejects

    [Q x idx v] is what is known of the value [v] the mapper resolves with
    on item [x] at index [idx].  [Phi done started w] relates the world to
    the indices whose invocation has settled, in the order they settled,
    and to the number of invocations started: it holds at the start, a
    call of the mapper extends [started] and a settlement extends [done]. *)

Section NoRejection.
Variable Q : Item -> nat -> R -> Prop.
Variable Phi : list nat -> nat -> W -> Prop.

Hypothesis mapper_resolves :
  forall x idx w, exists v,
    fst (Mapper.on_settle mapper x idx w) = Resolved v /\ Q x idx v.
Hypothesis Phi_call :
  forall done idx x w,
    items !! idx = Some x -> Phi done idx w ->
    Phi done (S idx) (Mapper.on_call mapper x idx w).
Hypothesis Phi_settle :
  forall done started idx x w,
    items !! idx = Some x -> Phi done started w ->
    Phi (done ++ [idx]) started (snd (Mapper.on_settle mapper x idx w)).

Local Abbreviation history st done :=
  (Mapper.rejection st = None
   /\ (Thrown ∉ Mapper.workers st)
   /\ length (Mapper.results st) = length items
   /\ (Returned ∈ Mapper.workers st -> length items <= Mapper.cursor st)
   /\ (done ++ in_flight st) ≡ₚ seq 0 (Mapper.cursor st `min` length items)
   /\ (forall idx x, idx ∈ done%list -> items !! idx = Some x ->
         exists v, Mapper.results st !! idx = Some (Some v) /\ Q x idx v)
   /\ Phi done%list (Mapper.cursor st `min` length items) (Mapper.world st)).

Lemma Phi_started w0 j :
  j <= length items ->
  Phi [] 0 w0 ->
  Phi [] j (Mapper.world (Nat.iter j (Mapper.start_worker mapper items) (state0 w0))).
Proof.
  induction j as [|j IH]; intros Hj H0; [exact H0|].
  change (Nat.iter (S j) (Mapper.start_worker mapper items) (state0 w0))
    with (Mapper.start_worker mapper items
            (Nat.iter j (Mapper.start_worker mapper items) (state0 w0))).
  destruct (iter_start_worker w0 j) as (Hc & _); [lia|].
  specialize (IH ltac:(lia) H0).
  remember (Nat.iter j (Mapper.start_worker mapper items) (state0 w0)) as st.
  unfold Mapper.start_worker, Mapper.take_next. rewrite Hc.
  destruct (lookup_lt_is_Some_2 items j) as [x Hx]; [lia|]. rewrite Hx. simpl.
  apply Phi_call; assumption.
Qed.

Lemma history_init limit w0 :
  Phi [] 0 w0 -> history (init limit w0) [].
Proof.
  intros H0. destruct (init_spec limit w0) as (Hc & Hr & Hw & He).
  split; [exact He|]. split.
  { rewrite Hw. intros Hin. apply list_elem_of_fmap in Hin as (i & Hi & _). discriminate. }
  split; [rewrite Hr; apply length_replicate|]. split.
  { rewrite Hw. intros Hin. apply list_elem_of_fmap in Hin as (i & Hi & _). discriminate. }
  split.
  { rewrite in_flight_init, Hc. simpl.
    replace ((limit `min` length items) `min` length items)
      with (limit `min` length items) by lia.
    reflexivity. }
  split; [intros idx x Hin; apply elem_of_nil in Hin as []|].
  rewrite Hc.
  replace ((limit `min` length items) `min` length items)
    with (limit `min` length items) by lia.
  apply Phi_started; [lia | exact H0].
Qed.

Lemma elem_of_insert_worker (ws : list Mapper.worker) k wk wk' :
  wk' ∈ <[k := wk]> ws -> wk' = wk \/ wk' ∈ ws.
Proof.
  intros Hin. apply list_elem_of_lookup in Hin as [j Hj].
  apply list_lookup_insert_Some in Hj as [(_ & -> & _)|[_ Hj]]; [left; reflexivity|].
  right. apply list_elem_of_lookup. eauto.
Qed.

Lemma history_step (st st' : state) done :
  history st done -> step st st' -> exists done', history st' done'.
Proof.
  intros (He & Ht & Hl & Hret & Hperm & Hres & Hphi) [k Hs].
  apply settle_Some in Hs as (idx & x & Hk & Hx & Hs). simpl in Hs.
  destruct (mapper_resolves x idx (Mapper.world st)) as (v & Hv & HQ).
  rewrite Hv in Hs.
  pose proof (lookup_lt_Some _ _ _ Hx) as Hidx.
  set (w := snd (Mapper.on_settle mapper x idx (Mapper.world st))) in *.
  assert (Hphi' : Phi (done ++ [idx]) (Mapper.cursor st `min` length items) w)
    by (apply Phi_settle; assumption).
  destruct (in_flight_replace _ k idx (fst (take_next (Mapper.cursor st) w)) Hk)
    as (l1 & l2 & Hfl & Hfl').
  exists (done ++ [idx]). subst st'. unfold in_flight in *.
  cbn [Mapper.cursor Mapper.results Mapper.workers Mapper.rejection Mapper.world].
  rewrite Hfl in Hperm. rewrite Hfl'. clear Hfl Hfl'.
  split; [exact He|].
  destruct (take_next_cases (Mapper.cursor st) w)
    as [(x' & Hx' & Hlt & Hc)|(_ & Hge & Hc)]; rewrite Hc;
    cbn [fst snd Mapper.awaited].
  - split.
    { intros Hin. apply elem_of_insert_worker in Hin as [?|?]; [discriminate | auto]. }
    split; [rewrite length_insert; exact Hl|]. split.
    { intros Hin. apply elem_of_insert_worker in Hin as [?|Hin]; [discriminate|].
      specialize (Hret Hin). lia. }
    replace (S (Mapper.cursor st) `min` length items) with (S (Mapper.cursor st)) by lia.
    replace (Mapper.cursor st `min` length items) with (Mapper.cursor st) in * by lia.
    split.
    { rewrite seq_S, <- Hperm. simpl. solve_Permutation. }
    split; [|apply Phi_call; assumption].
    intros i y Hin Hy. destruct (decide (i = idx)) as [->|Hne].
    + assert (y = x) as -> by congruence.
      exists v. split; [|exact HQ]. apply list_lookup_insert_eq. lia.
    + rewrite list_lookup_insert_ne by congruence.
      apply Hres; [|exact Hy].
      apply elem_of_app in Hin as [Hin|Hin]; [exact Hin|].
      apply list_elem_of_singleton in Hin. contradiction.
  - split.
    { intros Hin. apply elem_of_insert_worker in Hin as [?|?]; [discriminate | auto]. }
    split; [rewrite length_insert; exact Hl|]. split; [lia|].
    replace (S (Mapper.cursor st) `min` length items) with (length items) by lia.
    replace (Mapper.cursor st `min` length items) with (length items) in * by lia.
    split.
    { rewrite <- Hperm. simpl. solve_Permutation. }
    split; [|exact Hphi'].
    intros i y Hin Hy. destruct (decide (i = idx)) as [->|Hne].
    + assert (y = x) as -> by congruence.
      exists v. split; [|exact HQ]. apply list_lookup_insert_eq. lia.
    + rewrite list_lookup_insert_ne by congruence.
      apply Hres; [|exact Hy].
      apply elem_of_app in Hin as [Hin|Hin]; [exact Hin|].
      apply list_elem_of_singleton in Hin. contradiction.
Qed.

Lemma reachable_history limit w0 (st : state) :
  Phi [] 0 w0 -> reachable limit w0 st -> exists done, history st done.
Proof.
  intros H0. revert st.
  apply (reachable_invariant limit w0 (fun st => exists done, history st done)).
  - exists []. apply history_init, H0.
  - intros st st' _ [done Hh] Hstep. eapply history_step; eassumption.
Qed.

Lemma promise_Resolved (st : state) rs :
  Mapper.promise st = Some (Resolved rs) ->
  rs = Mapper.results st /\ in_flight st = [].
Proof.
  unfold Mapper.promise, Mapper.all_returned, in_flight.
  destruct (Mapper.rejection st); [discriminate|].
  destruct (forallb _ (Mapper.workers st)) eqn:Hall; [|discriminate].
  intros [= <-]. split; [reflexivity|].
  induction (Mapper.workers st) as [|wk ws IH]; [reflexivity|].
  simpl in Hall. apply andb_true_iff in Hall as [Hwk Hall].
  destruct wk; try discriminate. simpl. apply IH, Hall.
Qed.

(** Once nothing is in flight, every worker has returned, every item has
    been taken, and the promise of [mapWithLimit] is fulfilled. *)
Lemma history_complete limit (st : state) done :
  0 < limit ->
  length (Mapper.workers st) = limit `min` length items ->
  history st done ->
  in_flight st = [] ->
  Mapper.promise st = Some (Resolved (Mapper.results st))
  /\ length items <= Mapper.cursor st
  /\ done ≡ₚ seq 0 (length items)
  /\ Phi done (length items) (Mapper.world st)
  /\ length (Mapper.results st) = length items
  /\ (forall idx x, items !! idx = Some x ->
        exists v, Mapper.results st !! idx = Some (Some v) /\ Q x idx v).
Proof.
  intros Hlimit Hlen (He & Ht & Hl & Hret & Hperm & Hres & Hphi) Hfl.
  assert (Hall : forall wk, wk ∈ Mapper.workers st -> wk = Returned).
  { intros [i| |] Hin; [|reflexivity|contradiction].
    apply list_elem_of_lookup in Hin as [k Hk].
    assert (Hi : i ∈ in_flight st) by (apply elem_of_in_flight; eauto).
    rewrite Hfl in Hi. apply elem_of_nil in Hi as []. }
  assert (Hcur : length items <= Mapper.cursor st).
  { assert (Hex : length items = 0 \/ exists wk, wk ∈ Mapper.workers st).
    { clear -Hlen Hlimit. destruct (Mapper.workers st) as [|wk ws].
      - left. simpl in Hlen. lia.
      - right. exists wk. apply list_elem_of_here. }
    destruct Hex as [Hz|[wk Hin]]; [lia|].
    apply Hret. rewrite <- (Hall wk Hin). exact Hin. }
  replace (Mapper.cursor st `min` length items) with (length items) in * by lia.
  rewrite Hfl, app_nil_r in Hperm.
  split.
  { unfold Mapper.promise, Mapper.all_returned. rewrite He.
    replace (forallb _ (Mapper.workers st)) with true; [reflexivity|].
    symmetry. apply forallb_forall. intros wk Hin.
    rewrite (Hall wk); [reflexivity|]. apply list_elem_of_In, Hin. }
  split; [exact Hcur|]. split; [exact Hperm|]. split; [exact Hphi|].
  split; [exact Hl|].
  intros idx x Hx. apply Hres; [|exact Hx].
  rewrite Hperm. apply elem_of_seq. apply lookup_lt_Some in Hx. lia.
Qed.

(** Under every completion order [mapWithLimit] returns, with a result for
    every item. *)
Lemma mapWithLimit_resolves sched limit w0 :
  0 < limit ->
  Phi [] 0 w0 ->
  exists done rs w,
    Mapper.mapWithLimit mapper items sched limit w0 = (Some (Resolved rs), w)
    /\ done ≡ₚ seq 0 (length items)
    /\ Phi done (length items) w
    /\ length rs = length items
    /\ (forall idx x, items !! idx = Some x ->
          exists v, rs !! idx = Some (Some v) /\ Q x idx v).
Proof.
  intros Hlimit H0. unfold Mapper.mapWithLimit.
  set (st := run sched (length items) 0 (init limit w0)).
  assert (Hr : reachable limit w0 st) by apply run_reachable.
  destruct (reachable_history limit w0 st H0 Hr) as [done Hh].
  destruct (history_complete limit st done Hlimit
              (reachable_length_workers limit w0 st Hr) Hh (run_ends sched limit w0))
    as (Hp & _ & Hperm & Hphi & Hl & Hres).
  exists done, (Mapper.results st), (Mapper.world st).
  rewrite Hp. auto.
Qed.

(** It does not return before that: in a state where its promise is
    fulfilled, every item has been taken and nothing is in flight. *)
Lemma resolved_is_complete limit w0 (st : state) rs :
  0 < limit ->
  Phi [] 0 w0 ->
  reachable limit w0 st ->
  Mapper.promise st = Some (Resolved rs) ->
  in_flight st = []
  /\ length items <= Mapper.cursor st
  /\ length rs = length items
  /\ (forall idx x, items !! idx = Some x ->
        exists v, rs !! idx = Some (Some v) /\ Q x idx v)
  /\ exists done, done ≡ₚ seq 0 (length items) /\ Phi done (length items) (Mapper.world st).
Proof.
  intros Hlimit H0 Hr Hp. apply promise_Resolved in Hp as [-> Hfl].
  destruct (reachable_history limit w0 st H0 Hr) as [done Hh].
  destruct (history_complete limit st done Hlimit
              (reachable_length_workers limit w0 st Hr) Hh Hfl)
    as (_ & Hcur & Hperm & Hphi & Hl & Hres).
  repeat split; try assumption. exists done. auto.
Qed.

End NoRejection.

(** C1. For every list of items and every positive limit, when the worker
    produces the value [f x idx] on item [x] at index [idx], [mapWithLimit]
    returns under every completion order, what it returns has exactly
    [items.length] slots, and slot [idx] holds the value of the worker on
    [items[idx]]; and in no state of an execution is its promise fulfilled
    while an item has not been taken or an invocation is still in flight. *)
Theorem mapWithLimit_maps_every_item
    (f : Item -> nat -> R) (limit : nat) (w0 : W) :
  0 < limit ->
  (forall x idx w, fst (Mapper.on_settle mapper x idx w) = Resolved (f x idx)) ->
  (forall sched, exists rs,
      fst (Mapper.mapWithLimit mapper items sched limit w0) = Some (Resolved rs)
      /\ rs = imap (fun idx x => Some (f x idx)) items
      /\ length rs = length items
      /\ forall idx x, items !! idx = Some x -> rs !! idx = Some (Some (f x idx)))
  /\ (forall st rs,
        reachable limit w0 st ->
        Mapper.promise st = Some (Resolved rs) ->
        in_flight st = []
        /\ length items <= Mapper.cursor st
        /\ forall idx x, items !! idx = Some x -> rs !! idx = Some (Some (f x idx))).
Proof.
  intros Hlimit Hf.
  assert (Hok : forall x idx w, exists v,
             fst (Mapper.on_settle mapper x idx w) = Resolved v /\ v = f x idx)
    by (intros x idx w; exists (f x idx); auto).
  split.
  - intros sched.
    destruct (mapWithLimit_resolves (fun x idx v => v = f x idx) (fun _ _ _ => True)
                Hok ltac:(auto) ltac:(auto) sched limit w0 Hlimit I)
      as (done & rs & w & Hm & _ & _ & Hl & Hres).
    exists rs. rewrite Hm. split; [reflexivity|].
    assert (Hidx : forall idx x, items !! idx = Some x -> rs !! idx = Some (Some (f x idx))).
    { intros idx x Hx. destruct (Hres idx x Hx) as (v & Hv & ->). exact Hv. }
    split; [|auto].
    apply list_eq. intros idx. rewrite list_lookup_imap.
    destruct (items !! idx) as [x|] eqn:Hx; simpl.
    + apply Hidx, Hx.
    + apply lookup_ge_None. apply lookup_ge_None in Hx. lia.
  - intros st rs Hr Hp.
    destruct (resolved_is_complete (fun x idx v => v = f x idx) (fun _ _ _ => True)
                Hok ltac:(auto) ltac:(auto) limit w0 st rs Hlimit I Hr Hp)
      as (Hfl & Hcur & _ & Hres & _).
    split; [exact Hfl|]. split; [exact Hcur|].
    intros idx x Hx. destruct (Hres idx x Hx) as (v & Hv & ->). exact Hv.
Qed.

(** *** What every call and every settlement preserves *)

Lemma reachable_world_invariant (P : W -> Prop) limit w0 (st : state) :
  P w0 ->
  (forall x idx w, P w -> P (Mapper.on_call mapper x idx w)) ->
  (forall x idx w, P w -> P (snd (Mapper.on_settle mapper x idx w))) ->
  reachable limit w0 st ->
  P (Mapper.world st).
Proof.
  intros H0 Hcall Hsettle. revert st.
  assert (Hnext : forall idx w, P w -> P (snd (take_next idx w))).
  { intros idx w Hw.
    destruct (take_next_cases idx w) as [(x & _ & _ & ->)|(_ & _ & ->)]; simpl; auto. }
  apply (reachable_invariant limit w0 (fun st => P (Mapper.world st))).
  - unfold Mapper.init. induction (limit `min` length items) as [|j IH]; [exact H0|].
    change (Nat.iter (S j) (Mapper.start_worker mapper items) (state0 w0))
      with (Mapper.start_worker mapper items
              (Nat.iter j (Mapper.start_worker mapper items) (state0 w0))).
    remember (Nat.iter j (Mapper.start_worker mapper items) (state0 w0)) as st.
    unfold Mapper.start_worker.
    specialize (Hnext (Mapper.cursor st) (Mapper.world st) IH).
    destruct (take_next (Mapper.cursor st) (Mapper.world st)). exact Hnext.
  - intros st st' _ IH [k Hs].
    apply settle_Some in Hs as (idx & x & _ & _ & Hs). simpl in Hs.
    destruct (fst (Mapper.on_settle mapper x idx (Mapper.world st))); subst st'; simpl; auto.
Qed.

(** *** Mappers that may reject *)

Lemma run_no_pending sched fuel t (st : state) :
  Mapper.workers st = [] -> run sched fuel t st = st.
Proof.
  intros Hw. destruct fuel as [|fuel]; [reflexivity|]. simpl.
  unfold Mapper.pending. rewrite Hw. reflexivity.
Qed.

Lemma mapWithLimit_no_worker sched limit w0 :
  limit `min` length items = 0 ->
  Mapper.mapWithLimit mapper items sched limit w0
  = (Some (Resolved (replicate (length items) None)), w0).
Proof.
  intros Hz. unfold Mapper.mapWithLimit, Mapper.init. rewrite Hz. simpl Nat.iter.
  rewrite run_no_pending by reflexivity. reflexivity.
Qed.

(** X12. With a limit of 0, or with no items, [mapWithLimit] starts no
    worker: it returns at once an array of [items.length] empty slots,
    the mapper is never called and nothing else changes. *)
Theorem mapWithLimit_without_workers sched limit w0 :
  limit = 0 \/ items = [] ->
  Mapper.mapWithLimit mapper items sched limit w0
  = (Some (Resolved (replicate (length items) None)), w0)
  /\ Mapper.workers (init limit w0) = []
  /\ Mapper.world (init limit w0) = w0
  /\ forall st, reachable limit w0 st -> st = init limit w0.
Proof.
  intros Hz.
  assert (Hmin : limit `min` length items = 0)
    by (destruct Hz as [->| ->]; simpl; lia).
  split; [apply mapWithLimit_no_worker, Hmin|].
  assert (Hinit : init limit w0 = state0 w0)
    by (unfold Mapper.init; rewrite Hmin; reflexivity).
  rewrite Hinit. split; [reflexivity|]. split; [reflexivity|].
  intros st Hr. unfold Mapper.reachable in Hr. rewrite Hinit in Hr.
  inversion Hr as [|? st1 ? [k Hs] _]; subst; [reflexivity|].
  apply settle_Some in Hs as (idx & x & Hk & _). simpl in Hk.
  rewrite lookup_nil in Hk. discriminate Hk.
Qed.

(** A worker loop that has thrown has been seen by [Promise.all]; the
    error [Promise.all] holds was thrown by an invocation on an item. *)
Lemma reachable_rejection limit w0 (st : state) :
  reachable limit w0 st ->
  (Thrown ∈ Mapper.workers st -> Mapper.rejection st <> None)
  /\ (forall e, Mapper.rejection st = Some e ->
        exists idx x w, items !! idx = Some x
                        /\ fst (Mapper.on_settle mapper x idx w) = Rejected e)
  /\ length (Mapper.results st) = length items.
Proof.
  revert st.
  apply (reachable_invariant limit w0
    (fun st =>
       (Thrown ∈ Mapper.workers st -> Mapper.rejection st <> None)
       /\ (forall e, Mapper.rejection st = Some e ->
             exists idx x w, items !! idx = Some x
                             /\ fst (Mapper.on_settle mapper x idx w) = Rejected e)
       /\ length (Mapper.results st) = length items)).
  - destruct (init_spec limit w0) as (_ & Hr & Hw & He).
    rewrite Hw, He, Hr. split; [|split].
    + intros Hin. apply list_elem_of_fmap in Hin as (i & Hi & _). discriminate.
    + discriminate.
    + apply length_replicate.
  - intros st st' _ (Ht & He & Hl) [k Hs].
    apply settle_Some in Hs as (idx & x & Hk & Hx & Hs). simpl in Hs.
    destruct (fst (Mapper.on_settle mapper x idx (Mapper.world st))) as [v|e] eqn:Hout;
      subst st'; cbn [Mapper.workers Mapper.rejection Mapper.results].
    + split; [|split; [exact He | rewrite length_insert; exact Hl]].
      intros Hin. apply Ht.
      apply list_elem_of_lookup in Hin as [j Hj].
      apply list_lookup_insert_Some in Hj as [(_ & Heq & _)|[_ Hj]].
      * destruct (take_next_cases (Mapper.cursor st)
                    (snd (Mapper.on_settle mapper x idx (Mapper.world st))))
          as [(x' & _ & _ & Hc)|(_ & _ & Hc)]; rewrite Hc in Heq; simpl in Heq; discriminate Heq.
      * apply list_elem_of_lookup. eauto.
    + split; [discriminate|]. split; [|exact Hl].
      intros e' [= <-]. destruct (Mapper.rejection st) as [e0|] eqn:Hrej; simpl.
      * apply He. reflexivity.
      * exists idx, x, (Mapper.world st). auto.
Qed.

(** X13. Under every completion order the promise of [mapWithLimit]
    settles, for any mapper: it is fulfilled with an array of
    [items.length] slots, or rejected with an error that an invocation of
    the mapper on an item of the list threw. *)
Theorem mapWithLimit_always_settles sched limit w0 :
  exists o,
    fst (Mapper.mapWithLimit mapper items sched limit w0) = Some o
    /\ match o with
       | Resolved rs => length rs = length items
       | Rejected e =>
           exists idx x w, items !! idx = Some x
                           /\ fst (Mapper.on_settle mapper x idx w) = Rejected e
       end.
Proof.
  unfold Mapper.mapWithLimit. cbn [fst].
  set (st := run sched (length items) 0 (init limit w0)).
  assert (Hr : reachable limit w0 st) by apply run_reachable.
  destruct (reachable_rejection limit w0 st Hr) as (Ht & He & Hl).
  pose proof (run_ends sched limit w0) as Hfl. fold st in Hfl.
  unfold Mapper.promise.
  destruct (Mapper.rejection st) as [e|] eqn:Hrej.
  - exists (Rejected e). split; [reflexivity|]. apply He. reflexivity.
  - exists (Resolved (Mapper.results st)). split; [|exact Hl].
    replace (Mapper.all_returned st) with true; [reflexivity|].
    symmetry. apply forallb_forall. intros wk Hin. apply list_elem_of_In in Hin.
    destruct wk as [i| |]; [|reflexivity|exfalso; apply Ht; auto].
    exfalso. apply list_elem_of_lookup in Hin as [k Hk].
    assert (Hi : i ∈ in_flight st) by (apply elem_of_in_flight; eauto).
    rewrite Hfl in Hi. apply elem_of_nil in Hi as [].
Qed.

(** A worker loop returns only when the items are exhausted. *)
Lemma returned_exhausted limit w0 (st : state) :
  reachable limit w0 st ->
  Returned ∈ Mapper.workers st -> length items <= Mapper.cursor st.
Proof.
  revert st.
  apply (reachable_invariant limit w0
    (fun st => Returned ∈ Mapper.workers st -> length items <= Mapper.cursor st)).
  - destruct (init_spec limit w0) as (_ & _ & Hw & _). rewrite Hw.
    intros Hin. apply list_elem_of_fmap in Hin as (i & Hi & _). discriminate.
  - intros st st' _ IH [k Hs].
    apply settle_Some in Hs as (idx & x & Hk & Hx & Hs). simpl in Hs.
    destruct (fst (Mapper.on_settle mapper x idx (Mapper.world st)));
      subst st'; cbn [Mapper.workers Mapper.cursor]; intros Hin;
      apply list_elem_of_lookup in Hin as [j Hj];
      apply list_lookup_insert_Some in Hj as [(_ & Heq & _)|[_ Hj]].
    + destruct (take_next_cases (Mapper.cursor st)
                  (snd (Mapper.on_settle mapper x idx (Mapper.world st))))
        as [(x' & _ & _ & Hc)|(_ & Hge & Hc)]; rewrite Hc in Heq; simpl in Heq;
        [discriminate Heq | lia].
    + assert (Hold : Returned ∈ Mapper.workers st) by (apply list_elem_of_lookup; eauto).
      specialize (IH Hold). lia.
    + discriminate.
    + apply IH, list_elem_of_lookup. eauto.
Qed.

(** X14. With a limit of 1 the first rejection ends the run: the only
    worker loop has thrown, nothing is in flight and no step is left, so
    the items after the failing one are never given to the mapper. *)
Theorem single_worker_fails_fast w0 (st : state) e :
  1 <= length items ->
  reachable 1 w0 st ->
  Mapper.rejection st = Some e ->
  Mapper.workers st = [Thrown]
  /\ in_flight st = []
  /\ forall st', ~ step st st'.
Proof.
  intros Hn Hr Hrej.
  assert (Hinv : exists wk, Mapper.workers st = [wk]
                            /\ (Mapper.rejection st <> None -> wk = Thrown)).
  { clear Hrej e. revert st Hr.
    apply (reachable_invariant 1 w0
      (fun st => exists wk, Mapper.workers st = [wk]
                            /\ (Mapper.rejection st <> None -> wk = Thrown))).
    - destruct (init_spec 1 w0) as (_ & _ & Hw & He).
      replace (1 `min` length items) with 1 in Hw by lia.
      exists (Awaiting 0). split; [exact Hw|]. rewrite He. congruence.
    - intros st st' _ (wk & Hw & Hwk) [k Hs].
      apply settle_Some in Hs as (idx & x & Hk & Hx & Hs). simpl in Hs.
      rewrite Hw in Hk. destruct k as [|k]; [|discriminate]. injection Hk as ->.
      assert (Hnone : Mapper.rejection st = None).
      { destruct (Mapper.rejection st) eqn:E; [|reflexivity].
        discriminate Hwk. congruence. }
      destruct (fst (Mapper.on_settle mapper x idx (Mapper.world st)));
        subst st'; cbn [Mapper.workers Mapper.rejection]; rewrite Hw; simpl.
      + eexists. split; [reflexivity|]. congruence.
      + eexists. split; [reflexivity|]. reflexivity. }
  destruct Hinv as (wk & Hw & Hwk).
  rewrite (Hwk ltac:(congruence)) in Hw.
  split; [exact Hw|]. split.
  - unfold in_flight. rewrite Hw. reflexivity.
  - intros st' [k Hs]. apply settle_Some in Hs as (idx & x & Hk & _).
    rewrite Hw in Hk. destruct k; discriminate.
Qed.

End MapperFacts.

(** *** The order of the calls *)

Section CallLog.
Context {Item R W : Type}.
Variable mapper : Mapper.async_fn (Item:=Item) (R:=R) (W:=W).
Variable items : list Item.

Local Abbreviation logged := (with_call_log mapper).

Lemma call_log_started w0 j :
  j <= length items ->
  fst (Mapper.world
         (Nat.iter j (Mapper.start_worker logged items)
            (Mapper.State 0 (replicate (length items) (@None R)) [] None ([], w0))))
  = seq 0 j.
Proof.
  induction j as [|j IH]; intros Hj; [reflexivity|].
  destruct (iter_start_worker logged items ([], w0) j) as (Hc & _); [lia|].
  specialize (IH ltac:(lia)).
  change (Nat.iter (S j) ?f ?x) with (f (Nat.iter j f x)).
  remember (Nat.iter j _ _) as st.
  unfold Mapper.start_worker, Mapper.take_next. rewrite Hc.
  destruct (lookup_lt_is_Some_2 items j) as [x Hx]; [lia|]. rewrite Hx.
  cbn [Mapper.world Mapper.on_call with_call_log fst]. rewrite IH, seq_S. reflexivity.
Qed.

(** X15. For any mapper, failing or not: in every state of every
    execution the mapper has been called on the indices [0], [1], ... up
    to the shared counter, in this order and each once, never on an index
    outside the list; and once a worker loop has returned it has been
    called on every item. *)
Theorem calls_in_index_order limit w0 st :
  Mapper.reachable logged items limit ([], w0) st ->
  fst (Mapper.world st) = seq 0 (Mapper.cursor st `min` length items)
  /\ (Mapper.Returned ∈ Mapper.workers st ->
      fst (Mapper.world st) = seq 0 (length items)).
Proof.
  intros Hr.
  assert (Hlog : fst (Mapper.world st) = seq 0 (Mapper.cursor st `min` length items)).
  { revert st Hr.
    apply (reachable_invariant logged items limit ([], w0)
      (fun st => fst (Mapper.world st) = seq 0 (Mapper.cursor st `min` length items))).
    - destruct (init_spec logged items limit ([], w0)) as (Hc & _). rewrite Hc.
      replace ((limit `min` length items) `min` length items)
        with (limit `min` length items) by lia.
      apply call_log_started. lia.
    - intros st st' _ IH [k Hs].
      apply settle_Some in Hs as (idx & x & Hk & Hx & Hs). cbn zeta in Hs.
      assert (Hsnd : fst (snd (Mapper.on_settle logged x idx (Mapper.world st)))
                     = fst (Mapper.world st)).
      { cbn [Mapper.on_settle with_call_log].
        destruct (Mapper.on_settle mapper x idx (snd (Mapper.world st))). reflexivity. }
      destruct (fst (Mapper.on_settle logged x idx (Mapper.world st)));
        subst st'; cbn [Mapper.world Mapper.cursor].
      + destruct (take_next_cases logged items (Mapper.cursor st)
                    (snd (Mapper.on_settle logged x idx (Mapper.world st))))
          as [(x' & _ & Hlt & Hc)|(_ & Hge & Hc)]; rewrite Hc; cbn [snd].
        * cbn [Mapper.on_call with_call_log fst]. rewrite Hsnd, IH.
          replace (S (Mapper.cursor st) `min` length items) with (S (Mapper.cursor st)) by lia.
          replace (Mapper.cursor st `min` length items) with (Mapper.cursor st) by lia.
          rewrite seq_S. reflexivity.
        * rewrite Hsnd, IH. f_equal. lia.
      + rewrite Hsnd. exact IH. }
  split; [exact Hlog|].
  intros Hret. rewrite Hlog.
  pose proof (returned_exhausted logged items limit ([], w0) st Hr Hret).
  f_equal. lia.
Qed.

End CallLog.

(** ** The archive branch *)

Section ArchiveFacts.
Context `{Libraries}.
Variable cfg : config.
Variable env : ambient.
Variable opts : convertOpts.

Local Abbreviation call f := (buffer f, webp_options opts).

Lemma archive_worker_settle f idx w :
  Mapper.on_settle (archive_worker opts) f idx w
  = (Resolved (), archive_do (archive_entry opts f) w).
Proof.
  unfold archive_entry. simpl.
  destruct (convertBufferToWebp (buffer f) opts); reflexivity.
Qed.

(** The text of a failure is never empty. *)
Lemma failure_text_nonempty err : failure_text err <> [].
Proof.
  unfold failure_text. destruct (message err) as [[|c m]|]; discriminate.
Qed.

(** The callback never rejects: the failure of a conversion is caught
    inside it. *)
Lemma archive_worker_never_rejects f idx w :
  fst (Mapper.on_settle (archive_worker opts) f idx w) = Resolved ().
Proof. rewrite archive_worker_settle. reflexivity. Qed.

Lemma omap_lookup_seq {A B} (h : A -> B) (l : list A) :
  omap (fun idx => h <$> l !! idx) (seq 0 (length l)) = h <$> l.
Proof.
  induction l as [|x l IH] using rev_ind; [reflexivity|].
  rewrite length_app, Nat.add_comm. simpl length at 1. simpl Nat.add.
  rewrite seq_S, omap_app, fmap_app. simpl.
  rewrite list_lookup_middle by reflexivity. simpl. f_equal.
  rewrite <- IH. apply list_omap_ext, Forall_Forall2_diag, Forall_forall.
  intros idx Hin. apply elem_of_seq in Hin.
  rewrite lookup_app_l by lia. reflexivity.
Qed.

(** The world of the archive branch after the invocations of [done] have
    settled, in that order, and [started] invocations have begun. *)
Local Abbreviation archive_history fs w0 done started w :=
  (archive w = archive w0 ++ omap (fun idx => archive_entry opts <$> fs%list !! idx) done%list
   /\ codec_calls w = codec_calls w0 ++ ((fun f => call f) <$> take started fs%list)
   /\ res w = res w0).

Lemma archive_history_call fs w0 done idx f w :
  fs !! idx = Some f ->
  archive_history fs w0 done idx w ->
  archive_history fs w0 done (S idx) (Mapper.on_call (archive_worker opts) f idx w).
Proof.
  intros Hf (Ha & Hc & Hr). simpl. rewrite Ha, Hc, Hr.
  rewrite (take_S_r _ _ _ Hf), fmap_app, app_assoc. auto.
Qed.

Lemma archive_history_settle fs w0 done started idx f w :
  fs !! idx = Some f ->
  archive_history fs w0 done started w ->
  archive_history fs w0 (done ++ [idx]) started
    (snd (Mapper.on_settle (archive_worker opts) f idx w)).
Proof.
  intros Hf (Ha & Hc & Hr). rewrite archive_worker_settle. simpl.
  rewrite Ha, Hc, Hr, omap_app. simpl. rewrite Hf. simpl.
  rewrite app_assoc. auto.
Qed.

(** Every completion order of the archive branch ends with one entry per
    file, each file with its own, and one encoder call per file. *)
Lemma archive_mapWithLimit fs sched limit w0 :
  0 < limit ->
  exists rs entries,
    Mapper.mapWithLimit (archive_worker opts) fs sched limit w0
    = (Some (Resolved rs),
       World (res w0) (archive w0 ++ entries)
             (codec_calls w0 ++ ((fun f => call f) <$> fs)))
    /\ rs = replicate (length fs) (Some ())
    /\ entries ≡ₚ archive_entry opts <$> fs.
Proof.
  intros Hlimit.
  destruct (mapWithLimit_resolves (archive_worker opts) fs (fun _ _ _ => True)
              (fun done started w => archive_history fs w0 done started w)) with
    (sched := sched) (limit := limit) (w0 := w0)
    as (done & rs & w & Hm & Hperm & (Ha & Hc & Hr) & Hl & Hres).
  - intros f idx w. exists (). rewrite archive_worker_never_rejects. auto.
  - intros done idx f w. apply archive_history_call.
  - intros done started idx f w. apply archive_history_settle.
  - exact Hlimit.
  - simpl. rewrite !app_nil_r. auto.
  - exists rs, (omap (fun idx => archive_entry opts <$> fs !! idx) done).
    split; [|split].
    + rewrite Hm. f_equal. destruct w as [r a c]. simpl in *.
      rewrite Ha, Hc, Hr, firstn_all. reflexivity.
    + apply list_eq. intros idx.
      destruct (fs !! idx) as [f|] eqn:Hf.
      * destruct (Hres idx f Hf) as ([] & -> & _).
        symmetry. apply lookup_replicate_2. eapply lookup_lt_Some, Hf.
      * apply lookup_ge_None in Hf.
        rewrite (proj2 (lookup_ge_None rs idx)) by lia.
        symmetry. apply lookup_ge_None. rewrite length_replicate. exact Hf.
    + rewrite Hperm. rewrite omap_lookup_seq. reflexivity.
Qed.

(** While [mapWithLimit] runs, the archive is not finalized. *)
Lemma archive_open_while_mapping fs limit w0 st :
  Finalize ∉ archive w0 ->
  Mapper.reachable (archive_worker opts) fs limit w0 st ->
  Finalize ∉ archive (Mapper.world st).
Proof.
  intros H0.
  apply (reachable_world_invariant (archive_worker opts) fs
           (fun w => Finalize ∉ archive w)); [exact H0 | auto |].
  intros f idx w Hw. rewrite archive_worker_settle. simpl.
  rewrite elem_of_app, list_elem_of_singleton. intros [Hin|Heq]; [auto|].
  unfold archive_entry in Heq.
  destruct (convertBufferToWebp (buffer f) opts); discriminate.
Qed.


End ArchiveFacts.

Section ArchiveRoute.
Context `{Libraries}.
Variable cfg : config.
Variable env : ambient.

(** With [CONCURRENCY=0] a batch of three, two of which convert, gives an
    archive that is finalized with no entry. *)
Lemma archive_without_workers_has_no_entry :
  dispatch (length (files zip_of_three)) (outputMode (params zip_of_three)) = Archive
  /\ length (files zip_of_three) = 3
  /\ archive (convert (H:=sample_libraries) zero_concurrency sample_ambient zip_of_three)
     = [Finalize].
Proof. repeat split; vm_compute; reflexivity. Qed.

(** C4 (amended). In the archive branch, when the configured concurrency
    is positive, the calls made on the archiver are one [append] per file
    followed by [finalize]: the entries are, in some order, the entries of
    the files, and there are as many as files.  A file whose conversion
    succeeded has the encoded bytes under its sanitized output name (the
    base of the upload name as it is when that is clean, followed by
    [.webp]); one whose conversion failed has, under [<base>__ERROR.txt],
    the failure message as text: the message of the error, or
    [Conversion failed] when the error has no message or an empty one, so
    never an empty text.  In no state of the run of [mapWithLimit] is the
    archive finalized. *)
Theorem archive_has_one_entry_per_item (req : request) :
  dispatch (length (files req)) (outputMode (params req)) = Archive ->
  0 < CONVERT_CONCURRENCY cfg ->
  let opts := resolveOptions cfg (params req) in
  (exists entries,
      archive (convert cfg env req) = entries ++ [Finalize]
      /\ entries ≡ₚ archive_entry opts <$> files req
      /\ length entries = length (files req)
      /\ ended (res (convert cfg env req)) = true)
  /\ (forall f,
        archive_entry opts f
        = match convertBufferToWebp (buffer f) opts with
          | Resolved buf =>
              Append (Binary buf)
                (sanitizeFilename
                   (or_else (path_parse_name (or_else (originalname f) (lit "image.webp")))
                            (lit "image")) ++ lit ".webp")
          | Rejected err =>
              Append
                (Text match message err with
                      | Some (c :: m) => c :: m
                      | _ => lit "Conversion failed"
                      end)
                (sanitizeFilename (path_parse_name (or_else (originalname f) (lit "image")))
                   ++ lit "__ERROR.txt")
          end)
  /\ (forall f base,
        path_parse_name (or_else (originalname f) (lit "image.webp")) = base ->
        base <> [] -> length base <= 120 ->
        (forall c, In c base -> is_reserved c = false /\ is_space c = false) ->
        forall buf, convertBufferToWebp (buffer f) opts = Resolved buf ->
        archive_entry opts f = Append (Binary buf) (base ++ lit ".webp"))
  /\ (forall f content name,
        archive_entry opts f = Append content name ->
        content <> Text [] /\ name <> [])
  /\ (forall st,
        Mapper.reachable (archive_worker opts) (files req) (CONVERT_CONCURRENCY cfg)
          (zip_begin env (World fresh_response [] [])) st ->
        Finalize ∉ archive (Mapper.world st)).
Proof.
  intros Hd Hlimit opts.
  assert (Hentry : forall f,
    archive_entry opts f
    = match convertBufferToWebp (buffer f) opts with
      | Resolved buf =>
          Append (Binary buf)
            (sanitizeFilename
               (or_else (path_parse_name (or_else (originalname f) (lit "image.webp")))
                        (lit "image")) ++ lit ".webp")
      | Rejected err =>
          Append
            (Text match message err with
                  | Some (c :: m) => c :: m
                  | _ => lit "Conversion failed"
                  end)
            (sanitizeFilename (path_parse_name (or_else (originalname f) (lit "image")))
               ++ lit "__ERROR.txt")
      end).
  { intros f. unfold archive_entry, outName, errorName, changeExtToWebp, failure_text.
    destruct (convertBufferToWebp (buffer f) opts) as [buf|err]; [reflexivity|].
    destruct (message err) as [[|c m]|]; reflexivity. }
  split; [|split; [exact Hentry|split; [|split]]].
  - unfold convert. rewrite Hd. unfold convert_zip. fold opts.
    destruct (archive_mapWithLimit opts (files req) (completion env)
                (CONVERT_CONCURRENCY cfg) (zip_begin env (World fresh_response [] []))
                Hlimit)
      as (rs & entries & -> & _ & Hperm).
    exists entries. simpl. split; [reflexivity|]. split; [exact Hperm|].
    split; [|reflexivity].
    rewrite Hperm. apply length_fmap.
  - intros f base Hbase Hne Hlen Hclean buf Hc.
    rewrite Hentry, Hc, Hbase.
    replace (or_else base (lit "image")) with base
      by (destruct base; [congruence | reflexivity]).
    rewrite (sanitizeFilename_clean base Hne Hlen Hclean). reflexivity.
  - intros f content name. rewrite Hentry.
    destruct (convertBufferToWebp (buffer f) opts) as [buf|err]; intros [= <- <-].
    + split; [discriminate|].
      pose proof (sanitize_nonempty
                    (or_else (path_parse_name (or_else (originalname f) (lit "image.webp")))
                             (lit "image"))) as Hn.
      destruct (sanitizeFilename _); [congruence | discriminate].
    + split; [destruct (message err) as [[|c m]|]; discriminate|].
      pose proof (sanitize_nonempty
                    (path_parse_name (or_else (originalname f) (lit "image")))) as Hn.
      destruct (sanitizeFilename _); [congruence | discriminate].
  - intros st. apply archive_open_while_mapping. simpl. apply not_elem_of_nil.
Qed.

End ArchiveRoute.

(** ** [mapWithLimit] by itself does not catch *)


(** ** The multipart branch and the encoder calls of a request *)

Lemma write_all_spec cs r :
  write_all cs r = Response (statusCode r) (headers r) (body r ++ cs) (ended r).
Proof.
  revert r. induction cs as [|c cs IH]; intros r; simpl.
  - rewrite app_nil_r. destruct r; reflexivity.
  - unfold write_all in IH. rewrite IH. simpl. rewrite <- app_assoc. reflexivity.
Qed.

Section RouteFacts.
Context `{Libraries}.
Variable cfg : config.
Variable env : ambient.

Lemma fold_write_part opts boundary fs w :
  fold_left (write_part opts boundary) fs w
  = World (Response (statusCode (res w)) (headers (res w))
             (body (res w) ++ concat (part_chunks opts boundary <$> fs))
             (ended (res w)))
          (archive w)
          (codec_calls w ++ ((fun f => (buffer f, webp_options opts)) <$> fs)).
Proof.
  revert w. induction fs as [|f fs IH]; intros w; simpl.
  - rewrite !app_nil_r. destruct w as [[] ? ?]; reflexivity.
  - rewrite IH. unfold write_part, on_res, call_codec. simpl.
    rewrite write_all_spec. simpl. rewrite <- !app_assoc. reflexivity.
Qed.

(** The parts are written in the order of the files, one per file, and the
    closing delimiter after the last. *)
Lemma multipart_body opts fs w :
  body (res (convert_multipart env opts fs w))
  = body (res w)
    ++ concat (part_chunks opts (multipart_boundary env) <$> fs)
    ++ [spec_closing (multipart_boundary env)].
Proof.
  unfold convert_multipart. rewrite fold_write_part. simpl.
  rewrite <- app_assoc. reflexivity.
Qed.

(** The part of a file whose conversion succeeds is framed as specified. *)
Lemma part_chunks_success opts boundary f buf :
  convertBufferToWebp (buffer f) opts = Resolved buf ->
  part_chunks opts boundary f = expected_part opts boundary f
  /\ part_chunks opts boundary f
     = spec_part boundary (lit "image/webp") (outName f) buf.
Proof.
  intros Hc. unfold part_chunks, expected_part. rewrite Hc. split; reflexivity.
Qed.

(** The part of a file whose conversion fails is not: its
    [Content-Disposition] line ends with a bare LF. *)
Lemma part_chunks_failure opts boundary f err :
  convertBufferToWebp (buffer f) opts = Rejected err ->
  part_chunks opts boundary f <> expected_part opts boundary f
  /\ part_chunks opts boundary f !! 2
     = Some (Text (lit "Content-Disposition: " ++ attachment (errorName f) ++ LF)).
Proof.
  intros Hc. unfold part_chunks, expected_part, spec_part. rewrite Hc.
  split; [|reflexivity].
  intros Heq. injection Heq as Heq.
  apply app_inv_head in Heq. discriminate Heq.
Qed.

Lemma codec_calls_convert_zip opts fs w :
  codec_calls w = [] ->
  Forall (fun c => snd c = webp_options opts) (codec_calls (convert_zip cfg env opts fs w)).
Proof.
  intros Hw. unfold convert_zip, Mapper.mapWithLimit.
  set (st := Mapper.run _ _ _ _ _ _).
  assert (Hst : Forall (fun c => snd c = webp_options opts) (codec_calls (Mapper.world st))).
  { apply (reachable_world_invariant (archive_worker opts) fs
             (fun w => Forall (fun c => snd c = webp_options opts) (codec_calls w))
             (CONVERT_CONCURRENCY cfg) (zip_begin env w)).
    - simpl. rewrite Hw. constructor.
    - intros f idx w' Hw'. simpl. apply Forall_app. split; [exact Hw'|].
      repeat constructor.
    - intros f idx w' Hw'. rewrite archive_worker_settle. exact Hw'.
    - apply run_reachable. }
  destruct (Mapper.promise st) as [[rs|err]|]; simpl.
  - exact Hst.
  - rewrite codec_calls_errorHandler. exact Hst.
  - exact Hst.
Qed.

(** Every call of the encoder made for a request carries the options
    derived from the resolved options of the request. *)
Lemma codec_calls_convert req :
  Forall (fun c => snd c = webp_options (resolveOptions cfg (params req)))
         (codec_calls (convert cfg env req)).
Proof.
  unfold convert.
  destruct (dispatch (length (files req)) (outputMode (params req))).
  - constructor.
  - destruct (files req) as [|f fs]; [constructor|].
    rewrite codec_calls_convert_single. simpl. repeat constructor.
  - apply codec_calls_convert_zip. reflexivity.
  - unfold convert_multipart. rewrite fold_write_part. simpl.
    apply Forall_fmap, Forall_forall. intros f _. reflexivity.
  - constructor.
Qed.

(** C10. When the resolved options have [lossless = true], the quality
    handed to the encoder is 100, in the adapter and so in every encoder
    call of the request, whatever quality was resolved and is kept in the
    options record. *)
Theorem lossless_encodes_at_quality_100 (req : request) :
  let opts := resolveOptions cfg (params req) in
  lossless opts = true ->
  (forall buf,
      convertBufferToWebp buf opts = sharp_rotate_webp buf (webp_options opts))
  /\ wo_quality (webp_options opts) = Some 100%Q
  /\ quality opts = clamp (q_quality (params req)) 1 100 (Some (DEFAULT_QUALITY cfg))
  /\ Forall (fun c => wo_quality (snd c) = Some 100%Q)
            (codec_calls (convert cfg env req)).
Proof.
  intros opts Hl.
  assert (Hq : wo_quality (webp_options opts) = Some 100%Q)
    by (unfold webp_options; cbn [wo_quality]; rewrite Hl; reflexivity).
  split; [reflexivity|]. split; [exact Hq|]. split; [reflexivity|].
  eapply Forall_impl; [apply codec_calls_convert|].
  intros c Hc. simpl in Hc. rewrite Hc. exact Hq.
Qed.

End RouteFacts.

(** ** The properties at sample inputs *)

(** C5 (the code at the failing input). For one upload whose conversion
    fails, the multipart body is the part followed by the closing
    delimiter, but the [Content-Disposition] line of the part ends with a
    bare LF where every other line ends with CRLF, so the bytes sent are
    not those of a part framed as specified. *)
Theorem multipart_failure_part_has_bare_LF :
  body (res (convert (H:=sample_libraries) default_config sample_ambient
               failing_multipart))
  = [ Text (lit "--batch-00001111" ++ CRLF);
      Text (lit "Content-Type: text/plain; charset=utf-8" ++ CRLF);
      Text (lit "Content-Disposition: attachment; filename=" ++ dquote
              ++ lit "a__ERROR.txt" ++ dquote ++ LF);
      Text (lit "Content-Length: 21" ++ CRLF ++ CRLF);
      Binary (utf8 (lit "Input buffer is empty"));
      Text CRLF;
      Text (lit "--batch-00001111--" ++ CRLF) ]
  /\ wire (body (res (convert (H:=sample_libraries) default_config sample_ambient
                        failing_multipart)))
     <> wire (expected_part (H:=sample_libraries)
                (resolveOptions default_config (params failing_multipart))
                (multipart_boundary sample_ambient) (png "a.png" [])
              ++ [spec_closing (multipart_boundary sample_ambient)]).
Proof.
  split; [vm_compute; reflexivity|].
  intros Heq. vm_compute in Heq. discriminate Heq.
Qed.

(** Two good uploads around a bad one, as an archive: three entries in the
    order the conversions complete (here the first worker is always the
    first to be done), the bad one as an error file, then [finalize]. *)
Example archive_of_three :
  archive (convert (H:=sample_libraries) default_config sample_ambient zip_of_three)
  = [ Append (Binary [1%N]) (lit "a.webp");
      Append (Binary [2%N; 3%N]) (lit "d.webp");
      Append (Text (lit "Input buffer is empty")) (lit "b_c__ERROR.txt");
      Finalize ].
Proof. vm_compute. reflexivity. Qed.

Lemma mapWithLimit_maps_every_item_witness :
  (forall sched, exists rs,
      fst (Mapper.mapWithLimit doubling [1; 2; 3] sched 2 ()) = Some (Resolved rs)
      /\ rs = imap (fun idx x => Some (2 * x)) [1; 2; 3]
      /\ length rs = length [1; 2; 3]
      /\ forall idx x, [1; 2; 3] !! idx = Some x -> rs !! idx = Some (Some (2 * x)))
  /\ (forall st rs,
        Mapper.reachable doubling [1; 2; 3] 2 () st ->
        Mapper.promise st = Some (Resolved rs) ->
        Mapper.in_flight st = []
        /\ length [1; 2; 3] <= Mapper.cursor st
        /\ forall idx x, [1; 2; 3] !! idx = Some x -> rs !! idx = Some (Some (2 * x))).
Proof.
  apply (mapWithLimit_maps_every_item doubling [1; 2; 3] (fun x _ => 2 * x) 2 ()).
  - lia.
  - reflexivity.
Defined.

Lemma mapWithLimit_concurrency_bound_witness :
  (forall st, Mapper.reachable doubling [1; 2; 3] 2 () st ->
              length (Mapper.in_flight st) <= 2)
  /\ Mapper.in_flight (Mapper.init doubling [1; 2; 3] 2 ()) = seq 0 (2 `min` 3)
  /\ (length [1; 2; 3] <= 2 ->
      Mapper.in_flight (Mapper.init doubling [1; 2; 3] 2 ()) = seq 0 3)
  /\ (2 = 1 ->
      forall st idx, Mapper.reachable doubling [1; 2; 3] 2 () st ->
        idx ∈ Mapper.in_flight st ->
        Mapper.in_flight st = [idx] /\ Mapper.cursor st = S idx).
Proof.
  apply (mapWithLimit_concurrency_bound doubling [1; 2; 3] 2 ()); simpl; lia.
Defined.


Lemma archive_has_one_entry_per_item_witness :
  (exists entries,
      archive (convert (H:=sample_libraries) default_config sample_ambient zip_of_three)
      = entries ++ [Finalize]
      /\ entries ≡ₚ archive_entry (H:=sample_libraries)
                      (resolveOptions default_config (params zip_of_three))
                    <$> files zip_of_three
      /\ length entries = length (files zip_of_three)
      /\ ended (res (convert (H:=sample_libraries) default_config sample_ambient
                       zip_of_three)) = true)
  /\ (forall f content name,
        archive_entry (H:=sample_libraries)
          (resolveOptions default_config (params zip_of_three)) f
        = Append content name ->
        content <> Text [] /\ name <> [])
  /\ (forall st,
        Mapper.reachable
          (archive_worker (H:=sample_libraries)
             (resolveOptions default_config (params zip_of_three)))
          (files zip_of_three) (CONVERT_CONCURRENCY default_config)
          (zip_begin sample_ambient (World fresh_response [] [])) st ->
        Finalize ∉ archive (Mapper.world st)).
Proof.
  destruct (archive_has_one_entry_per_item (H:=sample_libraries)
              default_config sample_ambient zip_of_three)
    as (Hentries & _ & _ & Hcontent & Hopen).
  - reflexivity.
  - simpl. lia.
  - split; [exact Hentries | split; [exact Hcontent | exact Hopen]].
Defined.

Lemma lossless_encodes_at_quality_100_witness :
  wo_quality (webp_options (resolveOptions default_config (params lossless_request)))
  = Some 100%Q
  /\ quality (resolveOptions default_config (params lossless_request)) = Some 30%Q
  /\ Forall (fun c => wo_quality (snd c) = Some 100%Q)
            (codec_calls (convert (H:=sample_libraries) default_config sample_ambient
                            lossless_request)).
Proof.
  destruct (lossless_encodes_at_quality_100 (H:=sample_libraries)
              default_config sample_ambient lossless_request)
    as (_ & Hq & Hstored & Hcalls).
  - reflexivity.
  - split; [exact Hq|]. split; [|exact Hcalls].
    rewrite Hstored. reflexivity.
Defined.

(** * Further properties of the code *)

(** ** Option resolution *)

Lemma Qle_bool_false a b : Qle_bool a b = false -> (b < a)%Q.
Proof.
  intros Hf. apply Qnot_le_lt. intros Hle.
  apply Qle_bool_iff in Hle. congruence.
Qed.

(** What [clamp] returns on a finite number is between the bounds, and is
    the number itself when that is between the bounds. *)
Lemma Math_clamp_range (min max n : Q) :
  (min <= max)%Q ->
  (min <= Math_min max (Math_max min n) <= max)%Q
  /\ ((min <= n <= max)%Q -> (Math_min max (Math_max min n) == n)%Q).
Proof.
  intros Hmm. unfold Math_min, Math_max.
  destruct (Qle_bool min n) eqn:E1.
  - apply Qle_bool_iff in E1.
    destruct (Qle_bool max n) eqn:E2.
    + apply Qle_bool_iff in E2. split; [split; [exact Hmm | apply Qle_refl]|].
      intros [_ Hn]. apply Qle_antisym; assumption.
    + apply Qle_bool_false in E2. split; [split; [exact E1 | apply Qlt_le_weak, E2]|].
      intros _. reflexivity.
  - apply Qle_bool_false in E1.
    destruct (Qle_bool max min) eqn:E2.
    + apply Qle_bool_iff in E2. split; [split; [exact Hmm | apply Qle_refl]|].
      intros [Hn _]. exfalso. eapply Qlt_irrefl, Qlt_le_trans; eassumption.
    + split; [split; [apply Qle_refl | exact Hmm]|].
      intros [Hn _]. exfalso. eapply Qlt_irrefl, Qlt_le_trans; eassumption.
Qed.

Lemma clamp_cases num min max def :
  (min <= max)%Q ->
  match Number num with
  | Finite n =>
      exists v, clamp num min max def = Some v
                /\ (min <= v <= max)%Q
                /\ ((min <= n <= max)%Q -> (v == n)%Q)
  | _ => clamp num min max def = def
  end.
Proof.
  intros Hmm. unfold clamp. destruct (Number num) as [| |n]; try reflexivity.
  eexists. split; [reflexivity|]. apply Math_clamp_range, Hmm.
Qed.

(** X1. Whatever the query holds, the resolved quality is a number between
    1 and 100 or the configured default, the resolved effort is between 0
    and 6 or the configured default, and the alpha quality is between 0
    and 100 or unset; the default (or unset) is taken exactly when the
    parameter is not a finite number. *)
Theorem resolved_options_in_range (cfg : config) (q : query) :
  (exists v, quality (resolveOptions cfg q) = Some v
     /\ match Number (q_quality q) with
        | Finite _ => (1 <= v <= 100)%Q
        | _ => v = DEFAULT_QUALITY cfg
        end)
  /\ (exists v, effort (resolveOptions cfg q) = Some v
     /\ match Number (q_effort q) with
        | Finite _ => (0 <= v <= 6)%Q
        | _ => v = DEFAULT_EFFORT cfg
        end)
  /\ match Number (q_alphaQuality q) with
     | Finite _ => exists v, alphaQuality (resolveOptions cfg q) = Some v
                             /\ (0 <= v <= 100)%Q
     | _ => alphaQuality (resolveOptions cfg q) = None
     end.
Proof.
  unfold resolveOptions. cbn [quality effort alphaQuality].
  split; [|split].
  - pose proof (clamp_cases (q_quality q) 1 100 (Some (DEFAULT_QUALITY cfg))
                  ltac:(discriminate)) as Hc.
    destruct (Number (q_quality q)) as [| |n].
    + rewrite Hc. eauto.
    + rewrite Hc. eauto.
    + destruct Hc as (v & -> & Hr & _). eauto.
  - pose proof (clamp_cases (q_effort q) 0 6 (Some (DEFAULT_EFFORT cfg))
                  ltac:(discriminate)) as Hc.
    destruct (Number (q_effort q)) as [| |n].
    + rewrite Hc. eauto.
    + rewrite Hc. eauto.
    + destruct Hc as (v & -> & Hr & _). eauto.
  - pose proof (clamp_cases (q_alphaQuality q) 0 100 None ltac:(discriminate)) as Hc.
    destruct (Number (q_alphaQuality q)) as [| |n]; [exact Hc | exact Hc|].
    destruct Hc as (v & -> & Hr & _). eauto.
Qed.

Lemma skip_spaces_blank s : blank s -> skip_spaces s = [].
Proof.
  induction 1 as [|c s Hc _ IH]; simpl; [reflexivity|]. rewrite Hc. exact IH.
Qed.

Lemma of_string_blank s : blank s -> of_string s = Finite 0.
Proof.
  intros Hb. unfold of_string, trim. rewrite (skip_spaces_blank s Hb). reflexivity.
Qed.

(** X2. A numeric parameter that is present but empty or blank is the
    number 0, not an absent parameter: it is clamped, so the quality
    resolves to 1 and the effort and the alpha quality to 0 (the alpha
    quality is then set), whatever the defaults are. *)
Theorem blank_parameter_is_zero (cfg : config) (q : query) (s : jsstring) :
  blank s ->
  (q_quality q = Some s -> quality (resolveOptions cfg q) = Some 1%Q)
  /\ (q_effort q = Some s -> effort (resolveOptions cfg q) = Some 0%Q)
  /\ (q_alphaQuality q = Some s -> alphaQuality (resolveOptions cfg q) = Some 0%Q).
Proof.
  intros Hb. unfold resolveOptions, clamp. cbn [quality effort alphaQuality].
  repeat split; intros ->; simpl; rewrite (of_string_blank s Hb); reflexivity.
Qed.

Lemma blank_parameter_is_zero_witness :
  (q_quality (query_quality " ") = Some (lit " ") ->
   quality (resolveOptions default_config (query_quality " ")) = Some 1%Q)
  /\ (q_effort (query_quality " ") = Some (lit " ") ->
      effort (resolveOptions default_config (query_quality " ")) = Some 0%Q)
  /\ (q_alphaQuality (query_quality " ") = Some (lit " ") ->
      alphaQuality (resolveOptions default_config (query_quality " ")) = Some 0%Q).
Proof.
  apply (blank_parameter_is_zero default_config (query_quality " ") (lit " ")).
  repeat constructor.
Defined.

Lemma lower_char_idem c : lower_char (lower_char c) = lower_char c.
Proof.
  unfold lower_char.
  destruct ((65 <=? c)%N && (c <=? 90)%N) eqn:E; [|rewrite E; reflexivity].
  apply andb_true_iff in E as [E1 E2].
  apply N.leb_le in E1. apply N.leb_le in E2.
  replace ((65 <=? c + 32)%N && (c + 32 <=? 90)%N) with false; [reflexivity|].
  symmetry. apply andb_false_iff. right. apply N.leb_gt. lia.
Qed.

Lemma toLowerCase_idem s : toLowerCase (toLowerCase s) = toLowerCase s.
Proof.
  unfold toLowerCase. rewrite List.map_map.
  apply List.map_ext. intros c. apply lower_char_idem.
Qed.

(** X3. A boolean parameter that is present is true exactly when, lowered,
    it is one of [1], [true], [yes] and [on]; the default is the answer
    only for an absent parameter; and the case of the letters does not
    matter. *)
Theorem parseBool_accepts (s : jsstring) (def : bool) :
  (parseBool (Some s) def = true
   <-> toLowerCase s = lit "1" \/ toLowerCase s = lit "true"
       \/ toLowerCase s = lit "yes" \/ toLowerCase s = lit "on")
  /\ parseBool (Some s) def = parseBool (Some s) (negb def)
  /\ parseBool (Some (toLowerCase s)) def = parseBool (Some s) def
  /\ parseBool None def = def.
Proof.
  split; [|split; [reflexivity|split; [|reflexivity]]].
  - unfold parseBool. rewrite !orb_true_iff, !str_eqb_eq. tauto.
  - unfold parseBool. rewrite toLowerCase_idem. reflexivity.
Qed.

Lemma clamp_default_irrelevant num min max v def :
  clamp num min max None = Some v -> clamp num min max def = Some v.
Proof. unfold clamp. destruct (Number num); [discriminate.. | auto]. Qed.

Lemma decimal_quality_upto_1000 :
  forallb (fun n =>
    match clamp (q_quality (query_quality_number n)) 1 100 None with
    | Some v => (Qnum v =? Qnum (quality_of n))%Z && (Qden v =? Qden (quality_of n))%positive
    | None => false
    end) (seq 0 1001) = true.
Proof. vm_compute. reflexivity. Qed.

(** X4. A quality written as a decimal integer from 0 to 1000 resolves to
    that integer brought into 1..100: itself from 1 to 100, 1 for 0, and
    100 above 100, whatever the configured default. *)
Theorem integer_quality_resolves (cfg : config) (n : nat) :
  n <= 1000 ->
  quality (resolveOptions cfg (query_quality_number n)) = Some (quality_of n)
  /\ (1 <= n <= 100 -> quality_of n = inject_Z (Z.of_nat n)).
Proof.
  intros Hn. split.
  - pose proof decimal_quality_upto_1000 as Hall.
    rewrite forallb_forall in Hall.
    specialize (Hall n). rewrite in_seq in Hall. specialize (Hall ltac:(lia)).
    unfold resolveOptions. cbn [quality].
    destruct (clamp (q_quality (query_quality_number n)) 1 100 None) as [v|] eqn:Hc;
      [|discriminate].
    rewrite (clamp_default_irrelevant _ _ _ v _ Hc). f_equal.
    apply andb_true_iff in Hall as [H1 H2].
    apply Z.eqb_eq in H1. apply Pos.eqb_eq in H2.
    destruct v as [a b], (quality_of n) as [c d]. simpl in *. congruence.
  - intros Hr. unfold quality_of. do 2 f_equal. lia.
Qed.

Lemma integer_quality_resolves_witness :
  quality (resolveOptions default_config (query_quality_number 57)) = Some (quality_of 57)
  /\ (1 <= 57 <= 100 -> quality_of 57 = inject_Z (Z.of_nat 57)).
Proof. apply (integer_quality_resolves default_config 57). lia. Defined.

Lemma toLowerCase_nil s : toLowerCase s = [] <-> s = [].
Proof. destruct s; simpl; split; congruence. Qed.

(** X5. The mode hint is read without regard to the case of its letters,
    and an absent or empty hint is [auto]: two hints that are equal once
    lowered select the same branch for every number of files. *)
Theorem output_hint_ignores_case (q : query) (s s' : jsstring) (n : nat) :
  toLowerCase s = toLowerCase s' ->
  dispatch n (outputMode (with_output q s)) = dispatch n (outputMode (with_output q s'))
  /\ outputMode (with_output q []) = lit "auto"
  /\ (q_output q = None -> outputMode q = lit "auto").
Proof.
  intros Heq. split; [|split].
  - f_equal. unfold outputMode, with_output. cbn [q_output default].
    destruct s as [|c s], s' as [|c' s']; try discriminate; [reflexivity|].
    simpl or_else. exact Heq.
  - reflexivity.
  - intros Hq. unfold outputMode. rewrite Hq. reflexivity.
Qed.

Lemma output_hint_ignores_case_witness :
  dispatch 2 (outputMode (with_output no_query (lit "ZIP")))
  = dispatch 2 (outputMode (with_output no_query (lit "zip")))
  /\ outputMode (with_output no_query []) = lit "auto"
  /\ (q_output no_query = None -> outputMode no_query = lit "auto").
Proof.
  apply (output_hint_ignores_case no_query (lit "ZIP") (lit "zip") 2). reflexivity.
Defined.

(** ** The upload filter and the error handler *)

(** X6. [isImageMime] accepts exactly the types made of [image/], in any
    case of the letters, followed by at least one character, the first of
    which is not a line terminator; an absent or empty type is refused. *)
Theorem isImageMime_accepts (m : jsstring) :
  (isImageMime (Some m) = true
   <-> exists p c r, m = p ++ c :: r
                     /\ length p = 6
                     /\ toLowerCase p = lit "image/"
                     /\ is_line_terminator c = false)
  /\ isImageMime None = false
  /\ isImageMime (Some []) = false.
Proof.
  split; [|split; reflexivity].
  unfold isImageMime. change (default [] (Some m)) with m. rewrite andb_true_iff, str_eqb_eq. split.
  - intros [Hp Hr]. revert Hr.
    destruct (drop 6 m) as [|c r] eqn:Hd; intros Hr; [discriminate|].
    exists (take 6 m), c, r.
    split; [rewrite <- Hd; symmetry; apply take_drop|].
    split.
    + apply (f_equal length) in Hp. unfold toLowerCase in Hp.
      rewrite length_map in Hp. exact Hp.
    + split; [exact Hp|]. apply negb_true_iff, Hr.
  - intros (p & c & r & -> & Hl & Hp & Hc).
    rewrite <- Hl, take_app_length, drop_app_length.
    split; [exact Hp|]. rewrite Hc. reflexivity.
Qed.

(** X7. An upload whose type is not an image type is refused by the filter
    with the code [LIMIT_UNEXPECTED_FILE], and the error handler answers
    that error with 400, the fixed text and the code, whatever message the
    library gave the error; an upload of an image type passes. *)
Theorem non_image_upload_is_refused (l : upload_limits) (mime : option jsstring)
    (message : jsstring) (w : world) :
  isImageMime mime = false ->
  exists code,
    fileFilter mime = Some code
    /\ res (globalErrorHandler l (Multer code message) w)
       = send_json
           [("error", JString (lit "Unsupported file. Only images are allowed."));
            ("code", JString (lit "LIMIT_UNEXPECTED_FILE"))]%string
           (status 400 (res w))
    /\ codec_calls (globalErrorHandler l (Multer code message) w) = codec_calls w.
Proof.
  intros Hm. exists (lit "LIMIT_UNEXPECTED_FILE").
  unfold fileFilter. rewrite Hm. repeat split.
Qed.

Lemma non_image_upload_is_refused_witness :
  exists code,
    fileFilter (Some (lit "text/plain")) = Some code
    /\ res (globalErrorHandler default_limits (Multer code (lit "Unexpected field")) empty_world)
       = send_json
           [("error", JString (lit "Unsupported file. Only images are allowed."));
            ("code", JString (lit "LIMIT_UNEXPECTED_FILE"))]%string
           (status 400 (res empty_world))
    /\ codec_calls (globalErrorHandler default_limits
                      (Multer code (lit "Unexpected field")) empty_world)
       = codec_calls empty_world.
Proof.
  apply (non_image_upload_is_refused default_limits (Some (lit "text/plain"))
           (lit "Unexpected field") empty_world).
  reflexivity.
Defined.

Lemma image_upload_passes m : isImageMime m = true -> fileFilter m = None.
Proof. intros Hm. unfold fileFilter. rewrite Hm. reflexivity. Qed.

(** X8. The error handler answers every [MulterError] of the library with
    400 and echoes its code; for the three codes of the table the text is
    the fixed one, with the configured limit in it, and the message of the
    error is used for the other codes only.  An error that is not a
    [MulterError] never has its message sent: the answer is 500 with a
    fixed text, or nothing at all when the response has begun. *)
Theorem error_handler_answers (l : upload_limits) (w : world) :
  (forall code message,
      In code multer_codes ->
      statusCode (res (globalErrorHandler l (Multer code message) w)) = 400
      /\ exists text,
          body (res (globalErrorHandler l (Multer code message) w))
          = body (res w) ++ [JsonText [("error", JString text); ("code", JString code)]%string]
          /\ (code = lit "LIMIT_FILE_SIZE" ->
              text = lit "File too large. Max " ++ decimal (MAX_FILE_SIZE_MB l)
                       ++ lit "MB per file.")
          /\ (code = lit "LIMIT_FILE_COUNT" ->
              text = lit "Too many files. Max " ++ decimal (MAX_FILES l) ++ lit ".")
          /\ (code = lit "LIMIT_UNEXPECTED_FILE" ->
              text = lit "Unsupported file. Only images are allowed.")
          /\ (code <> lit "LIMIT_FILE_SIZE" -> code <> lit "LIMIT_FILE_COUNT" ->
              code <> lit "LIMIT_UNEXPECTED_FILE" -> text = message))
  /\ (forall err,
        (headersSent (res w) = true -> globalErrorHandler l (Other err) w = w)
        /\ (headersSent (res w) = false ->
            res (globalErrorHandler l (Other err) w)
            = send_json (error_body (lit "Internal Server Error")) (status 500 (res w)))).
Proof.
  split.
  - intros code message _. split; [reflexivity|].
    exists (multer_text l code message). split; [reflexivity|].
    unfold multer_text. split; [|split; [|split]].
    + intros ->. reflexivity.
    + intros ->. reflexivity.
    + intros ->. reflexivity.
    + intros H1 H2 H3.
      destruct (str_eqb code (lit "LIMIT_FILE_SIZE")) eqn:E1;
        [apply str_eqb_eq in E1; contradiction|].
      destruct (str_eqb code (lit "LIMIT_FILE_COUNT")) eqn:E2;
        [apply str_eqb_eq in E2; contradiction|].
      destruct (str_eqb code (lit "LIMIT_UNEXPECTED_FILE")) eqn:E3;
        [apply str_eqb_eq in E3; contradiction|].
      reflexivity.
  - intros err. unfold globalErrorHandler, errorHandler.
    split; intros ->; reflexivity.
Qed.

(** ** File names *)

Lemma length_replace_reserved s : length (replace_reserved s) = length s.
Proof. unfold replace_reserved. apply length_map. Qed.

Lemma length_replace_spaces_from b s :
  length (replace_spaces_from b s) <= length s.
Proof.
  revert b. induction s as [|c s IH]; intros b; simpl; [lia|].
  pose proof (IH true). pose proof (IH false).
  destruct (is_space c); [destruct b|]; simpl; lia.
Qed.

(** X9. A name that is not empty, has at most 120 code units and holds no
    reserved character and no white space is left as it is. *)
Theorem sanitizeFilename_keeps_clean_names (x : jsstring) :
  x <> [] ->
  length x <= 120 ->
  (forall c, In c x -> is_reserved c = false /\ is_space c = false) ->
  sanitizeFilename x = x.
Proof.
  intros Hne Hlen Hclean.
  assert (Hr : Forall (fun c => is_reserved c = false) x).
  { apply Forall_forall. intros c Hc. apply Hclean, list_elem_of_In, Hc. }
  assert (Hs : Forall (fun c => is_space c = false) x).
  { apply Forall_forall. intros c Hc. apply Hclean, list_elem_of_In, Hc. }
  unfold sanitizeFilename, slice0, replace_spaces.
  replace (or_else x (lit "image")) with x by (destruct x; [congruence | reflexivity]).
  rewrite (replace_reserved_id x Hr), (replace_spaces_from_id false x Hs).
  apply take_ge, Hlen.
Qed.

Lemma sanitizeFilename_keeps_clean_names_witness :
  sanitizeFilename (lit "holiday-2024.final") = lit "holiday-2024.final".
Proof.
  apply (sanitizeFilename_keeps_clean_names (lit "holiday-2024.final")).
  - discriminate.
  - simpl. lia.
  - intros c Hc. simpl in Hc.
    repeat (destruct Hc as [<-|Hc]; [split; reflexivity|]). destruct Hc.
Defined.

(** X10. Sanitizing never makes a name longer: the result has at most as
    many code units as the name, or as [image] when the name is empty. *)
Theorem sanitizeFilename_never_longer (x : jsstring) :
  length (sanitizeFilename x) <= length (or_else x (lit "image"))
  /\ sanitizeFilename [] = lit "image".
Proof.
  split; [|reflexivity].
  unfold sanitizeFilename, slice0, replace_spaces.
  rewrite length_take.
  pose proof (length_replace_spaces_from false
                (replace_reserved (or_else x (lit "image")))) as Hle.
  rewrite length_replace_reserved in Hle. lia.
Qed.

Section NameFacts.
Context `{Libraries}.

Lemma plain_not_quote_or_break c :
  is_reserved c = false -> is_space c = false ->
  c <> 34%N /\ c <> 13%N /\ c <> 10%N /\ c <> 47%N /\ c <> 92%N.
Proof.
  intros Hr Hs. repeat split; intros ->; discriminate.
Qed.

Lemma Forall_plain_app_lit (base : jsstring) (suffix : string) :
  Forall (fun c => is_reserved c = false /\ is_space c = false) base ->
  forallb (fun c => negb (is_reserved c) && negb (is_space c)) (lit suffix) = true ->
  Forall (fun c => is_reserved c = false /\ is_space c = false) (base ++ lit suffix).
Proof.
  intros Hb Hs. apply Forall_app. split; [exact Hb|].
  apply Forall_forall. intros c Hc. apply list_elem_of_In in Hc.
  rewrite forallb_forall in Hs. specialize (Hs c Hc).
  apply andb_true_iff in Hs as [H1 H2].
  apply negb_true_iff in H1. apply negb_true_iff in H2. auto.
Qed.

Lemma sanitize_plain x :
  Forall (fun c => is_reserved c = false /\ is_space c = false) (sanitizeFilename x).
Proof.
  apply Forall_forall. intros c Hc. split.
  - pose proof (sanitize_reserved_free x) as Hr. rewrite Forall_forall in Hr. auto.
  - pose proof (sanitize_space_free x) as Hs. rewrite Forall_forall in Hs. auto.
Qed.

(** X11. Whatever the name of the upload and whatever [path.parse] makes
    of it, the output name is a non-empty base of at most 120 code units
    followed by [.webp], the error name is such a base followed by
    [__ERROR.txt], and neither holds a reserved character or white space:
    no double quote, CR or LF that would end the quoted file name of a
    [Content-Disposition] header, and no slash or backslash. *)
Theorem output_names_are_safe (f : file) :
  (exists base, outName f = base ++ lit ".webp"
                /\ 1 <= length base <= 120)
  /\ (exists base, errorName f = base ++ lit "__ERROR.txt"
                   /\ 1 <= length base <= 120)
  /\ (forall c, In c (outName f) \/ In c (errorName f) ->
        is_reserved c = false /\ is_space c = false
        /\ c <> 34%N /\ c <> 13%N /\ c <> 10%N /\ c <> 47%N /\ c <> 92%N).
Proof.
  assert (Hlen : forall x, 1 <= length (sanitizeFilename x) <= 120).
  { intros x. pose proof (sanitize_length x). pose proof (sanitize_nonempty x).
    destruct (sanitizeFilename x); [congruence | simpl in *; lia]. }
  split; [|split].
  - eexists. split; [reflexivity | apply Hlen].
  - eexists. split; [reflexivity | apply Hlen].
  - intros c Hc.
    assert (Hp : is_reserved c = false /\ is_space c = false).
    { destruct Hc as [Hc|Hc]; apply list_elem_of_In in Hc; revert c Hc;
        apply Forall_forall;
        (apply Forall_plain_app_lit; [apply sanitize_plain | reflexivity]). }
    destruct Hp as [Hr Hs]. split; [exact Hr|]. split; [exact Hs|].
    apply plain_not_quote_or_break; assumption.
Qed.

End NameFacts.

(** ** The values given to [res.setHeader] *)

Lemma valid_attachment name :
  valid_header_value (attachment name) = forallb valid_header_char name.
Proof.
  unfold valid_header_value, attachment.
  rewrite !forallb_app. simpl. rewrite !andb_true_r. reflexivity.
Qed.

Lemma valid_lit_digits d :
  forallb valid_header_char (lit (DecimalString.NilEmpty.string_of_uint d)) = true.
Proof. induction d; simpl; auto. Qed.

Lemma valid_decimal n : forallb valid_header_char (decimal n) = true.
Proof.
  unfold decimal, DecimalString.NilZero.string_of_uint.
  destruct (N.to_uint n); try reflexivity; apply valid_lit_digits.
Qed.

(** The headers of the archive branch are always accepted. *)
Lemma zip_headers_valid now :
  forallb (fun h => valid_header_value (snd h)) (zip_headers now) = true.
Proof.
  unfold zip_headers. cbn [forallb snd]. rewrite valid_attachment.
  rewrite !forallb_app, valid_decimal. reflexivity.
Qed.

(** So are those of the multipart branch, the UUID being made of code
    units that are accepted. *)
Lemma multipart_headers_valid env :
  forallb valid_header_char (randomUUID env) = true ->
  forallb (fun h => valid_header_value (snd h))
          (multipart_headers (multipart_boundary env)) = true.
Proof.
  intros Hu. unfold multipart_headers, multipart_boundary, valid_header_value.
  cbn [forallb snd]. rewrite !forallb_app.
  assert (Hf : forallb valid_header_char
                 (List.filter (fun c => negb (char_eqb c dash)) (randomUUID env)) = true).
  { rewrite forallb_forall in Hu. apply forallb_forall.
    intros c Hc. apply List.filter_In in Hc as [Hc _]. auto. }
  rewrite Hf. reflexivity.
Qed.

(** A name outside Latin-1 makes the single-file branch answer 500 though
    the conversion succeeded. *)
Example unicode_name_is_refused_by_setHeader :
  res (convert (H:=sample_libraries) default_config sample_ambient unicode_upload)
  = Response 500 [("Content-Type"%string, lit "image/webp")]
      [JsonText (error_body (lit "Internal Server Error"))] true
  /\ codec_calls (convert (H:=sample_libraries) default_config sample_ambient unicode_upload)
     = [([1%N], webp_options sample_opts)].
Proof. split; vm_compute; reflexivity. Qed.

(** A literal beyond the range of doubles is an infinity, so it is not
    clamped: the default, or [undefined], is taken. *)
Example overflowing_literal_takes_the_default :
  Number (Some (lit "1e400")) = Infinity false
  /\ clamp (Some (lit "1e400")) 1 100 (Some 80%Q) = Some 80%Q
  /\ clamp (Some (lit "-1e400")) 0 100 None = None.
Proof. repeat split; vm_compute; reflexivity. Qed.

(** ** Failure texts, padded numbers and the order of completion *)

Lemma utf8_nonempty s : s <> [] -> utf8 s <> [].
Proof.
  destruct s as [|c s]; [congruence|]. intros _. simpl.
  destruct (c <? 128)%N; [discriminate|].
  destruct (c <? 2048)%N; [discriminate|].
  destruct ((55296 <=? c)%N && (c <? 56320)%N).
  - destruct s as [|lo s]; [discriminate|].
    destruct ((56320 <=? lo)%N && (lo <? 57344)%N); discriminate.
  - destruct ((56320 <=? c)%N && (c <? 57344)%N); discriminate.
Qed.

(** X22. The text put in place of a failed item is never empty, and
    neither are its bytes: it is the message of the error when there is a
    non-empty one and [Conversion failed] when the message is missing or
    empty. *)
Theorem failure_text_is_never_empty (err : jserror) :
  failure_text err <> []
  /\ utf8 (failure_text err) <> []
  /\ match message err with
     | Some (c :: m) => failure_text err = c :: m
     | _ => failure_text err = lit "Conversion failed"
     end.
Proof.
  split; [apply failure_text_nonempty|].
  split; [apply utf8_nonempty, failure_text_nonempty|].
  unfold failure_text. destruct (message err) as [[|c m]|]; reflexivity.
Qed.

Lemma skip_spaces_app_blank a s : blank a -> skip_spaces (a ++ s) = skip_spaces s.
Proof.
  induction 1 as [|c a Hc _ IH]; simpl; [reflexivity|]. rewrite Hc. exact IH.
Qed.

Lemma skip_spaces_app s b :
  skip_spaces s <> [] -> skip_spaces (s ++ b) = skip_spaces s ++ b.
Proof.
  induction s as [|c s IH]; simpl; [congruence|].
  destruct (is_space c); [exact IH | reflexivity].
Qed.

Lemma blank_rev b : blank b -> blank (rev b).
Proof. unfold blank. intros Hb. apply Forall_rev, Hb. Qed.

Lemma skip_spaces_nil_blank s : skip_spaces s = [] -> blank s.
Proof.
  induction s as [|c s IH]; simpl; [constructor|].
  destruct (is_space c) eqn:Hc; [|discriminate].
  intros Hs. constructor; [exact Hc | apply IH, Hs].
Qed.

Lemma trim_padded a s b : blank a -> blank b -> trim (a ++ s ++ b) = trim s.
Proof.
  intros Ha Hb. unfold trim. rewrite (skip_spaces_app_blank a _ Ha).
  destruct (skip_spaces s) as [|c s'] eqn:Hs.
  - assert (Hsb : blank (s ++ b)).
    { apply Forall_app. split; [apply skip_spaces_nil_blank, Hs | exact Hb]. }
    rewrite (skip_spaces_blank _ Hsb). reflexivity.
  - rewrite skip_spaces_app by (rewrite Hs; discriminate). rewrite Hs.
    rewrite rev_app_distr, (skip_spaces_app_blank (rev b) _ (blank_rev b Hb)).
    reflexivity.
Qed.

(** X23. White space around a numeric parameter does not count: padded
    with blanks on either side it is read as the same number and resolves
    to the same value. *)
Theorem padded_number_is_the_same (a s b : jsstring) (min max : Q) (def : option Q) :
  blank a ->
  blank b ->
  Number (Some (a ++ s ++ b)) = Number (Some s)
  /\ clamp (Some (a ++ s ++ b)) min max def = clamp (Some s) min max def.
Proof.
  intros Ha Hb.
  assert (Hn : Number (Some (a ++ s ++ b)) = Number (Some s)).
  { simpl. unfold of_string. rewrite (trim_padded a s b Ha Hb). reflexivity. }
  split; [exact Hn|]. unfold clamp. rewrite Hn. reflexivity.
Qed.

Lemma padded_number_is_the_same_witness :
  Number (Some (lit " " ++ lit "57" ++ lit "  ")) = Number (Some (lit "57"))
  /\ clamp (Some (lit " " ++ lit "57" ++ lit "  ")) 1 100 (Some 80%Q)
     = clamp (Some (lit "57")) 1 100 (Some 80%Q).
Proof.
  apply (padded_number_is_the_same (lit " ") (lit "57") (lit "  ") 1 100 (Some 80%Q));
    repeat constructor.
Defined.

Section CompletionOrder.
Context `{Libraries}.
Variable cfg : config.
Variable env : ambient.

(** X24. With a positive concurrency, the order in which the conversions
    complete changes nothing of a request's answer but the order of the
    entries of the archive: the response and the encoder calls are the
    same under any two orders, and the calls on the archiver are the same
    up to order. *)
Theorem completion_order_only_permutes_archive (req : request) (order : nat -> nat) :
  0 < CONVERT_CONCURRENCY cfg ->
  res (convert cfg (with_completion env order) req) = res (convert cfg env req)
  /\ codec_calls (convert cfg (with_completion env order) req)
     = codec_calls (convert cfg env req)
  /\ archive (convert cfg (with_completion env order) req)
     ≡ₚ archive (convert cfg env req).
Proof.
  intros Hlimit. unfold convert.
  destruct (dispatch (length (files req)) (outputMode (params req)));
    try (repeat split; reflexivity).
  unfold convert_zip.
  destruct (archive_mapWithLimit (resolveOptions cfg (params req)) (files req)
              (completion (with_completion env order)) (CONVERT_CONCURRENCY cfg)
              (zip_begin (with_completion env order) (World fresh_response [] [])) Hlimit)
    as (rs & entries & -> & _ & Hp).
  destruct (archive_mapWithLimit (resolveOptions cfg (params req)) (files req)
              (completion env) (CONVERT_CONCURRENCY cfg)
              (zip_begin env (World fresh_response [] [])) Hlimit)
    as (rs' & entries' & -> & _ & Hp').
  split; [reflexivity|]. split; [reflexivity|].
  simpl. rewrite Hp, Hp'. reflexivity.
Qed.

End CompletionOrder.

Lemma completion_order_only_permutes_archive_witness :
  res (convert (H:=sample_libraries) default_config
         (with_completion sample_ambient (fun t => t)) zip_of_three)
  = res (convert (H:=sample_libraries) default_config sample_ambient zip_of_three)
  /\ codec_calls (convert (H:=sample_libraries) default_config
                    (with_completion sample_ambient (fun t => t)) zip_of_three)
     = codec_calls (convert (H:=sample_libraries) default_config sample_ambient zip_of_three)
  /\ archive (convert (H:=sample_libraries) default_config
                (with_completion sample_ambient (fun t => t)) zip_of_three)
     ≡ₚ archive (convert (H:=sample_libraries) default_config sample_ambient zip_of_three).
Proof.
  apply (completion_order_only_permutes_archive (H:=sample_libraries) default_config
           sample_ambient zip_of_three (fun t => t)).
  simpl. lia.
Defined.

(** ** Requests *)

Lemma str_eqb_false a b : str_eqb a b = false <-> a <> b.
Proof.
  split.
  - intros Hf Heq. apply str_eqb_eq in Heq. congruence.
  - intros Hne. destruct (str_eqb a b) eqn:E; [|reflexivity].
    apply str_eqb_eq in E. contradiction.
Qed.

(** The branch taken, read backwards. *)
Lemma dispatch_cases n mode :
  match dispatch n mode with
  | NoFiles => n = 0
  | Single => n = 1 /\ mode <> lit "zip" /\ mode <> lit "multipart"
  | Archive => 0 < n /\ (mode = lit "zip" \/ (mode = lit "auto" /\ 1 < n))
  | Multipart => 0 < n /\ mode = lit "multipart"
  | InvalidMode =>
      1 < n /\ mode <> lit "zip" /\ mode <> lit "auto" /\ mode <> lit "multipart"
  end.
Proof.
  unfold dispatch.
  destruct (Nat.eqb_spec n 0) as [|Hn0]; [assumption|].
  destruct (str_eqb mode (lit "zip")) eqn:Ez.
  { apply str_eqb_eq in Ez. simpl. split; [lia | auto]. }
  apply str_eqb_false in Ez.
  destruct (str_eqb mode (lit "multipart")) eqn:Em.
  { apply str_eqb_eq in Em. subst mode. simpl.
    destruct (1 <? n); simpl; split; auto; lia. }
  apply str_eqb_false in Em.
  destruct (str_eqb mode (lit "auto")) eqn:Ea.
  - apply str_eqb_eq in Ea.
    destruct (Nat.ltb_spec 1 n); simpl.
    + split; [lia | auto].
    + destruct (Nat.eqb_spec n 1); [auto | lia].
  - apply str_eqb_false in Ea. simpl.
    destruct (Nat.eqb_spec n 1); [auto|].
    repeat split; auto; lia.
Qed.

Section RequestFacts.
Context `{Libraries}.
Variable cfg : config.
Variable env : ambient.

Local Abbreviation begin := (zip_begin env (World fresh_response [] [])).

Lemma zip_begin_res :
  res begin = Response 200 (zip_headers (Date_now env)) [] false.
Proof. reflexivity. Qed.

(** The archive callback leaves the response alone. *)
Lemma archive_run_res opts fs limit st :
  Mapper.reachable (archive_worker opts) fs limit begin st ->
  res (Mapper.world st) = res begin.
Proof.
  apply (reachable_world_invariant (archive_worker opts) fs
           (fun w => res w = res begin)); [reflexivity | auto |].
  intros f idx w Hw. rewrite archive_worker_settle. exact Hw.
Qed.

(** X16. With a positive concurrency, a request that is not refused has
    every uploaded file handed to the encoder exactly once, in upload
    order and with the options resolved from the query, in whichever of
    the three branches and whatever fails; a refused request reaches the
    encoder not once. *)
Theorem every_file_is_encoded_once (req : request) :
  0 < CONVERT_CONCURRENCY cfg ->
  codec_calls (convert cfg env req)
  = match dispatch (length (files req)) (outputMode (params req)) with
    | NoFiles | InvalidMode => []
    | Single | Archive | Multipart =>
        encoder_call (resolveOptions cfg (params req)) <$> files req
    end.
Proof.
  intros Hlimit. unfold convert.
  pose proof (dispatch_cases (length (files req)) (outputMode (params req))) as Hd.
  destruct (dispatch (length (files req)) (outputMode (params req))).
  - reflexivity.
  - destruct Hd as (Hn & _).
    destruct (files req) as [|f [|g fs]]; try discriminate Hn.
    apply codec_calls_convert_single.
  - unfold convert_zip.
    destruct (archive_mapWithLimit (resolveOptions cfg (params req)) (files req)
                (completion env) (CONVERT_CONCURRENCY cfg) begin Hlimit)
      as (rs & entries & -> & _ & _).
    reflexivity.
  - unfold convert_multipart. rewrite fold_write_part. reflexivity.
  - reflexivity.
Qed.

(** X17. With [CONCURRENCY=0] an archive request converts nothing: the
    encoder is never called and the archive is finalized with no entry at
    all, under an answer of 200. *)
Theorem zero_concurrency_gives_empty_archive (req : request) :
  CONVERT_CONCURRENCY cfg = 0 ->
  dispatch (length (files req)) (outputMode (params req)) = Archive ->
  archive (convert cfg env req) = [Finalize]
  /\ codec_calls (convert cfg env req) = []
  /\ res (convert cfg env req) = Response 200 (zip_headers (Date_now env)) [] true.
Proof.
  intros Hz Hd. unfold convert. rewrite Hd. unfold convert_zip.
  rewrite Hz, mapWithLimit_no_worker by reflexivity.
  repeat split.
Qed.

(** X18. A request is answered 400 by the handler exactly when it has no
    file, or has two files or more and a mode hint that is none of [zip],
    [auto] and [multipart]; and then the encoder is not called. *)
Theorem refused_requests (req : request) :
  (statusCode (res (convert cfg env req)) = 400
   <-> files req = []
       \/ (1 < length (files req)
           /\ outputMode (params req) <> lit "zip"
           /\ outputMode (params req) <> lit "auto"
           /\ outputMode (params req) <> lit "multipart"))
  /\ (statusCode (res (convert cfg env req)) = 400 ->
      codec_calls (convert cfg env req) = []).
Proof.
  pose proof (dispatch_cases (length (files req)) (outputMode (params req))) as Hd.
  assert (Hzip : statusCode (res (convert_zip cfg env (resolveOptions cfg (params req))
                                    (files req) (World fresh_response [] []))) <> 400).
  { unfold convert_zip, Mapper.mapWithLimit.
    set (st := Mapper.run _ _ _ _ _ _).
    assert (Hres : res (Mapper.world st) = res begin)
      by (apply (archive_run_res (resolveOptions cfg (params req)) (files req)
                   (CONVERT_CONCURRENCY cfg)), run_reachable).
    destruct (Mapper.promise st) as [[rs|err]|].
    - simpl. rewrite Hres. simpl. lia.
    - apply statusCode_errorHandler. rewrite Hres. reflexivity.
    - rewrite Hres. simpl. lia. }
  unfold convert.
  destruct (dispatch (length (files req)) (outputMode (params req))).
  - split; [|reflexivity]. split; [|reflexivity].
    intros _. left. destruct (files req); [reflexivity | discriminate].
  - destruct Hd as (Hn & Hz & Hm).
    destruct (files req) as [|f [|g fs]]; try discriminate Hn.
    assert (Hne : statusCode (res (convert_single (resolveOptions cfg (params req)) f
                                     (World fresh_response [] []))) <> 400).
    { apply statusCode_convert_single. reflexivity. }
    split; [|intros; contradiction]. split; [intros; contradiction|].
    intros [Hnil|(Hlen & _)]; [discriminate | simpl in Hlen; lia].
  - destruct Hd as (Hn & Hmode).
    split; [|intros; contradiction]. split; [intros; contradiction|].
    intros [Hnil|(Hlen & Hz & Ha & _)].
    + rewrite Hnil in Hn. simpl in Hn. lia.
    + destruct Hmode as [?|[? _]]; contradiction.
  - destruct Hd as (Hn & Hmode).
    assert (Hne : statusCode (res (convert_multipart env (resolveOptions cfg (params req))
                                     (files req) (World fresh_response [] []))) <> 400).
    { unfold convert_multipart. rewrite fold_write_part. simpl. lia. }
    split; [|intros; contradiction]. split; [intros; contradiction|].
    intros [Hnil|(Hlen & _ & _ & Hm)]; [|contradiction].
    rewrite Hnil in Hn. simpl in Hn. lia.
  - split; [|reflexivity]. split; [|reflexivity].
    intros _. right. exact Hd.
Qed.

(** X19. In the single-file branch the request has one file and the
    archiver is not used.  When the encoder succeeds and every code unit
    of the output name is one [res.setHeader] accepts, the answer is 200
    with the three headers, the output name in the [Content-Disposition],
    and the encoded image as the whole body; when the name holds a code
    unit [res.setHeader] refuses, the answer is 500 with a fixed JSON
    body, the [Content-Type] set before the refusal still in place; and
    when the encoder fails it is that 500 with no header set. *)
Theorem single_file_answer (req : request) :
  dispatch (length (files req)) (outputMode (params req)) = Single ->
  exists f,
    files req = [f]
    /\ archive (convert cfg env req) = []
    /\ res (convert cfg env req)
       = match convertBufferToWebp (buffer f) (resolveOptions cfg (params req)) with
         | Resolved buf =>
             if forallb valid_header_char (outName f)
             then Response 200 (single_headers (outName f)) [Binary buf] true
             else Response 500 [("Content-Type"%string, lit "image/webp")]
                    [JsonText (error_body (lit "Internal Server Error"))] true
         | Rejected _ =>
             Response 500 [] [JsonText (error_body (lit "Internal Server Error"))] true
         end.
Proof.
  intros Hd.
  pose proof (dispatch_cases (length (files req)) (outputMode (params req))) as Hc.
  rewrite Hd in Hc. destruct Hc as (Hn & _).
  unfold convert. rewrite Hd.
  destruct (files req) as [|f [|g fs]]; try discriminate Hn.
  exists f. split; [reflexivity|].
  unfold convert_single. rewrite valid_attachment.
  destruct (convertBufferToWebp (buffer f) _); [|split; reflexivity].
  destruct (forallb valid_header_char (outName f)); split; reflexivity.
Qed.

(** X20. In the multipart branch the answer is always 200 with the two
    headers, one part per file in upload order followed by the closing
    delimiter, and ended, whatever conversions fail; the archiver is not
    used. *)
Theorem multipart_answer (req : request) :
  dispatch (length (files req)) (outputMode (params req)) = Multipart ->
  res (convert cfg env req)
  = Response 200 (multipart_headers (multipart_boundary env))
      (concat (part_chunks (resolveOptions cfg (params req)) (multipart_boundary env)
                 <$> files req)
       ++ [Text (lit "--" ++ multipart_boundary env ++ lit "--" ++ CRLF)])
      true
  /\ archive (convert cfg env req) = []
  /\ (forall f, length (part_chunks (resolveOptions cfg (params req))
                          (multipart_boundary env) f) = 6).
Proof.
  intros Hd. unfold convert. rewrite Hd.
  unfold convert_multipart. rewrite fold_write_part.
  split; [reflexivity|]. split; [reflexivity|].
  intros f. unfold part_chunks. destruct (convertBufferToWebp (buffer f) _); reflexivity.
Qed.

(** X21. In the archive branch, with a positive concurrency, the answer is
    always 200 with the three headers of a zip attachment named after the
    clock, nothing is written to the response but through the archiver,
    and the response ends with the archive, whatever conversions fail. *)
Theorem archive_answer (req : request) :
  dispatch (length (files req)) (outputMode (params req)) = Archive ->
  0 < CONVERT_CONCURRENCY cfg ->
  res (convert cfg env req) = Response 200 (zip_headers (Date_now env)) [] true
  /\ last (archive (convert cfg env req)) = Some Finalize.
Proof.
  intros Hd Hlimit. unfold convert. rewrite Hd. unfold convert_zip.
  destruct (archive_mapWithLimit (resolveOptions cfg (params req)) (files req)
              (completion env) (CONVERT_CONCURRENCY cfg) begin Hlimit)
    as (rs & entries & -> & _ & _).
  split; [reflexivity|]. simpl. apply last_snoc.
Qed.

End RequestFacts.

(** ** The further properties at sample inputs *)

Lemma mapWithLimit_without_workers_witness :
  Mapper.mapWithLimit doubling [1; 2; 3] (fun _ => 0) 0 ()
  = (Some (Resolved (replicate (length [1; 2; 3]) None)), ())
  /\ Mapper.workers (Mapper.init doubling [1; 2; 3] 0 ()) = []
  /\ Mapper.world (Mapper.init doubling [1; 2; 3] 0 ()) = ()
  /\ forall st, Mapper.reachable doubling [1; 2; 3] 0 () st ->
                st = Mapper.init doubling [1; 2; 3] 0 ().
Proof.
  apply (mapWithLimit_without_workers doubling [1; 2; 3] (fun _ => 0) 0 ()).
  left. reflexivity.
Defined.

Lemma single_worker_fails_fast_witness :
  Mapper.workers failed_run = [Mapper.Thrown]
  /\ Mapper.in_flight failed_run = []
  /\ forall st', ~ Mapper.step (bare_worker (H:=sample_libraries) sample_opts)
                     bad_then_good failed_run st'.
Proof.
  apply (single_worker_fails_fast (bare_worker (H:=sample_libraries) sample_opts)
           bad_then_good empty_world failed_run empty_buffer_error).
  - simpl. lia.
  - apply run_reachable.
  - vm_compute. reflexivity.
Defined.

Lemma calls_in_index_order_witness :
  fst (Mapper.world logged_run) = seq 0 (Mapper.cursor logged_run `min` length [1; 2; 3])
  /\ (Mapper.Returned ∈ Mapper.workers logged_run ->
      fst (Mapper.world logged_run) = seq 0 (length [1; 2; 3])).
Proof.
  apply (calls_in_index_order doubling [1; 2; 3] 2 () logged_run).
  apply run_reachable.
Defined.

Lemma every_file_is_encoded_once_witness :
  codec_calls (convert (H:=sample_libraries) default_config sample_ambient zip_of_three)
  = match dispatch (length (files zip_of_three)) (outputMode (params zip_of_three)) with
    | NoFiles | InvalidMode => []
    | Single | Archive | Multipart =>
        encoder_call (resolveOptions default_config (params zip_of_three))
          <$> files zip_of_three
    end.
Proof.
  apply (every_file_is_encoded_once (H:=sample_libraries) default_config sample_ambient
           zip_of_three).
  simpl. lia.
Defined.

Lemma zero_concurrency_gives_empty_archive_witness :
  archive (convert (H:=sample_libraries) zero_concurrency sample_ambient zip_of_three)
  = [Finalize]
  /\ codec_calls (convert (H:=sample_libraries) zero_concurrency sample_ambient zip_of_three)
     = []
  /\ res (convert (H:=sample_libraries) zero_concurrency sample_ambient zip_of_three)
     = Response 200 (zip_headers (Date_now sample_ambient)) [] true.
Proof.
  apply (zero_concurrency_gives_empty_archive (H:=sample_libraries) zero_concurrency
           sample_ambient zip_of_three); reflexivity.
Defined.

Lemma single_file_answer_witness :
  exists f,
    files single_upload = [f]
    /\ archive (convert (H:=sample_libraries) default_config sample_ambient single_upload) = []
    /\ res (convert (H:=sample_libraries) default_config sample_ambient single_upload)
       = match convertBufferToWebp (H:=sample_libraries) (buffer f)
                 (resolveOptions default_config (params single_upload)) with
         | Resolved buf =>
             if forallb valid_header_char (outName (H:=sample_libraries) f)
             then Response 200 (single_headers (outName (H:=sample_libraries) f))
                    [Binary buf] true
             else Response 500 [("Content-Type"%string, lit "image/webp")]
                    [JsonText (error_body (lit "Internal Server Error"))] true
         | Rejected _ =>
             Response 500 [] [JsonText (error_body (lit "Internal Server Error"))] true
         end.
Proof.
  apply (single_file_answer (H:=sample_libraries) default_config sample_ambient
           single_upload).
  reflexivity.
Defined.

Lemma multipart_answer_witness :
  res (convert (H:=sample_libraries) default_config sample_ambient failing_multipart)
  = Response 200 (multipart_headers (multipart_boundary sample_ambient))
      (concat (part_chunks (H:=sample_libraries)
                 (resolveOptions default_config (params failing_multipart))
                 (multipart_boundary sample_ambient) <$> files failing_multipart)
       ++ [Text (lit "--" ++ multipart_boundary sample_ambient ++ lit "--" ++ CRLF)])
      true
  /\ archive (convert (H:=sample_libraries) default_config sample_ambient failing_multipart)
     = []
  /\ (forall f, length (part_chunks (H:=sample_libraries)
                          (resolveOptions default_config (params failing_multipart))
                          (multipart_boundary sample_ambient) f) = 6).
Proof.
  apply (multipart_answer (H:=sample_libraries) default_config sample_ambient
           failing_multipart).
  reflexivity.
Defined.

Lemma archive_answer_witness :
  res (convert (H:=sample_libraries) default_config sample_ambient zip_of_three)
  = Response 200 (zip_headers (Date_now sample_ambient)) [] true
  /\ last (archive (convert (H:=sample_libraries) default_config sample_ambient
                      zip_of_three)) = Some Finalize.
Proof.
  apply (archive_answer (H:=sample_libraries) default_config sample_ambient zip_of_three).
  - reflexivity.
  - simpl. lia.
Defined.
